(** * Stage 2 grouping (src/v3_stage_2.py): a shallow embedding

    Node labels of the graph are the item IDs.  In the pipeline they are the
    strings [str(Int64)] of integer IDs, and every output field applies
    [int(node)] to them; since [int(str(n)) = n] on these canonical strings,
    a node is written here directly as the integer [Z] it denotes.  Python
    floats (weights, scores, centralities) are modelled as rationals [Q]. *)

From Stdlib Require Import String Ascii.
From Stdlib Require Import List ZArith QArith Lia Lqa Permutation Bool Sorted.
Import ListNotations.
Open Scope Z_scope.

(** ** Configuration constants (lines 35-38, 58-59) *)

Definition TOP_K_NEIGHBORS : nat := 20.
Definition MAX_SUB_GROUP_SIZE : nat := 200.
Definition MIN_ORPHAN_GROUP_SIZE : nat := 100.
Definition MIN_HUB_SPOKE_GROUP_SIZE : nat := 10.
Definition LEXICAL_BOOST_FACTOR : Q := 1 # 5.
Definition STRUCTURAL_BOOST_FACTOR : Q := 3 # 20.

(** ** Python dicts keyed by node: association lists in insertion order *)

Definition mem (x : Z) (l : list Z) : bool := existsb (Z.eqb x) l.

Definition keys {V} (l : list (Z * V)) : list Z := map fst l.

(** [d[k] = v]: overwrite in place when [k] is present, append otherwise. *)
Fixpoint dset {V} (l : list (Z * V)) (k : Z) (v : V) : list (Z * V) :=
  match l with
  | [] => [(k, v)]
  | (k', v') :: l' => if Z.eqb k' k then (k, v) :: l' else (k', v') :: dset l' k v
  end.

Definition upd {A} (f : Z -> A) (k : Z) (a : A) : Z -> A :=
  fun x => if Z.eqb x k then a else f x.

(** ** networkx [Graph]: the node dict and the dict-of-dicts adjacency.
    [g_adj u] lists the [(v, weight)] entries of [G._adj[u]] in dict order. *)

Record graph := mkGraph {
  g_nodes : list Z;
  g_adj : Z -> list (Z * Q)
}.

Definition empty_graph : graph := mkGraph [] (fun _ => []).

(** [G.add_node(u)]: a new node gets an empty adjacency dict. *)
Definition add_node (G : graph) (u : Z) : graph :=
  if mem u (g_nodes G) then G
  else mkGraph (g_nodes G ++ [u]) (upd (g_adj G) u []).

Definition add_nodes_from (G : graph) (l : list Z) : graph :=
  fold_left add_node l G.

(** [G.add_edge(u, v, weight=w)]: adds missing end points, then sets
    [G._adj[u][v]] and [G._adj[v][u]] to the (shared) data dict. *)
Definition add_edge (G : graph) (u v : Z) (w : Q) : graph :=
  let G1 := add_node (add_node G u) v in
  let a1 := upd (g_adj G1) u (dset (g_adj G1 u) v w) in
  mkGraph (g_nodes G1) (upd a1 v (dset (a1 v) u w)).

Definition has_edge (G : graph) (u v : Z) : bool :=
  mem u (g_nodes G) && mem v (keys (g_adj G u)).

(** [G.remove_nodes_from(S)]: each node of [S] and every edge incident to
    it disappears; the remaining dict entries keep their order. *)
Definition remove_nodes_from (G : graph) (S : list Z) : graph :=
  mkGraph (filter (fun x => negb (mem x S)) (g_nodes G))
          (fun x => if mem x S then []
                    else filter (fun p => negb (mem (fst p) S)) (g_adj G x)).

(** [G.degree()]: a self-loop counts twice. *)
Definition degree (G : graph) (n : Z) : nat :=
  length (g_adj G n) + (if mem n (keys (g_adj G n)) then 1 else 0).

(** [nx.degree_centrality(G)]: unweighted degree over [len(G) - 1]. *)
Definition degree_centrality (G : graph) : list (Z * Q) :=
  match g_nodes G with
  | [] => []
  | [n] => [(n, 1%Q)]
  | ns => map (fun n => (n, (Z.of_nat (degree G n) # Pos.of_nat (length ns - 1))%Q)) ns
  end.

(** [sorted(xs, key=key, reverse=True)]: stable, so equal keys keep their
    original order. *)
Fixpoint insert_desc {A} (key : A -> Q) (x : A) (s : list A) : list A :=
  match s with
  | [] => [x]
  | y :: s' => if negb (Qle_bool (key x) (key y)) then x :: y :: s'
               else y :: insert_desc key x s'
  end.

Definition sort_desc {A} (key : A -> Q) (xs : list A) : list A :=
  fold_left (fun s x => insert_desc key x s) xs [].

(** [G.subgraph(members).copy()].  networkx iterates the induced node set
    [set(members)] when it is less than half of [G], and otherwise [G]'s own
    nodes filtered by membership; [copy] then re-adds the nodes and, node by
    node, the kept edges with their data.  [set_iter l] is the iteration
    order CPython gives [set(l)] (for strings it depends on the per-process
    hash seed). *)
Section Subgraph.
Variable set_iter : list Z -> list Z.

Definition subgraph_nodes (G : graph) (members : list Z) : list Z :=
  let s := set_iter members in
  if Nat.ltb (2 * length s) (length (g_nodes G))
  then filter (fun n => mem n (g_nodes G)) s
  else filter (fun n => mem n members) (g_nodes G).

Definition subgraph_copy (G : graph) (members : list Z) : graph :=
  let ns := subgraph_nodes G members in
  let es := flat_map (fun u => map (fun p => (u, p))
                        (filter (fun p => mem (fst p) members) (g_adj G u))) ns in
  fold_left (fun H e => add_edge H (fst e) (fst (snd e)) (snd (snd e)))
            es (add_nodes_from empty_graph ns).
End Subgraph.

(** ** Output records (section 6 of the spec, lines 177-201) *)

Inductive group_type := HubAndSpoke | Orphan.

(** ["group_id": "grp_<n>"] is kept as the counter [n]; [hub_cde_id] is
    present only for hub-and-spoke groups. *)
Record sub_group := mkSubGroup {
  group_id : nat;
  sg_type : group_type;
  hub_cde_id : option Z;
  sg_members : list Z
}.

(** ["community_id": "comm_<cid>"] is kept as [cid]. *)
Record community := mkCommunity {
  community_id : Z;
  total_cde_count : nat;
  comm_members : list Z;
  sub_groups : list sub_group
}.

(** ** [detect_and_format_communities_hub_spoke] (lines 130-204) *)

Section Partitioner.

(** Iteration order of a Python [set] built from a list (see [subgraph_copy]). *)
Variable set_iter : list Z -> list Z.

(** The inner [for potential_hub in sorted_hubs] loop (lines 163-172). *)
Fixpoint find_hub (W : graph) (sorted_hubs : list Z) : option (Z * list Z) :=
  match sorted_hubs with
  | [] => None
  | potential_hub :: rest =>
      let neighbors := sort_desc snd (g_adj W potential_hub) in
      let spoke_nodes := map fst (firstn (MAX_SUB_GROUP_SIZE - 1) neighbors) in
      let potential_group := potential_hub :: spoke_nodes in
      if Nat.leb MIN_HUB_SPOKE_GROUP_SIZE (length potential_group)
      then Some (potential_hub, potential_group)
      else find_hub W rest
  end.

(** The [while len(nodes_to_process) >= MIN_ORPHAN_GROUP_SIZE] loop (lines
    154-185).  [W] is [community_subgraph], [rem] is [nodes_to_process] in
    its set iteration order ([-=] deletes in place, so the survivors keep
    their order).  Every round removes at least its hub from [rem], so
    [fuel = length rem] never runs out before the loop condition fails.
    Returns the accepted [(hub, group)] pairs and the orphans. *)
Fixpoint hub_loop (fuel : nat) (W : graph) (rem : list Z)
  : list (Z * list Z) * list Z :=
  match fuel with
  | O => ([], rem)
  | S fuel' =>
      if Nat.leb MIN_ORPHAN_GROUP_SIZE (length rem) then
        match degree_centrality W with
        | [] => ([], rem)
        | centrality =>
            let sorted_hubs := map fst (sort_desc snd centrality) in
            match find_hub W sorted_hubs with
            | None => ([], rem)
            | Some (hub_node, hub_spoke_group) =>
                let rem' := filter (fun n => negb (mem n hub_spoke_group)) rem in
                let W' := remove_nodes_from W hub_spoke_group in
                let (gs, orphans) := hub_loop fuel' W' rem' in
                ((hub_node, hub_spoke_group) :: gs, orphans)
            end
        end
      else ([], rem)
  end.

(** [for i in range(0, len(orphans), MIN_ORPHAN_GROUP_SIZE):
       batch = orphans[i:i + MIN_ORPHAN_GROUP_SIZE]] (lines 189-190). *)
Definition orphan_batches (orphans : list Z) : list (list Z) :=
  map (fun k => firstn MIN_ORPHAN_GROUP_SIZE (skipn (k * MIN_ORPHAN_GROUP_SIZE) orphans))
      (seq 0 ((length orphans + (MIN_ORPHAN_GROUP_SIZE - 1)) / MIN_ORPHAN_GROUP_SIZE)).

(** Appending groups while bumping [group_counter]. *)
Fixpoint number_groups (counter : nat)
  (gs : list (group_type * option Z * list Z)) : list sub_group :=
  match gs with
  | [] => []
  | (t, h, ms) :: gs' => mkSubGroup counter t h ms :: number_groups (S counter) gs'
  end.

(** Body of the [for cid, members in parent_communities.items()] loop:
    the sub-groups of one community and the next [group_counter]. *)
Definition community_sub_groups (G : graph) (members : list Z) (counter : nat)
  : list sub_group * nat :=
  let community_subgraph := subgraph_copy set_iter G members in
  let nodes_to_process := set_iter members in
  let (hubs, orphans) :=
    hub_loop (length nodes_to_process) community_subgraph nodes_to_process in
  let gs := map (fun p => (HubAndSpoke, Some (fst p), snd p)) hubs
            ++ map (fun b => (Orphan, None, b)) (orphan_batches orphans) in
  (number_groups counter gs, counter + length gs)%nat.

(** [parent_communities.setdefault(cid, []).append(node)]. *)
Fixpoint setdefault_append (d : list (Z * list Z)) (k n : Z) : list (Z * list Z) :=
  match d with
  | [] => [(k, [n])]
  | (k', ms) :: d' => if Z.eqb k' k then (k', ms ++ [n]) :: d'
                      else (k', ms) :: setdefault_append d' k n
  end.

(** [community_louvain.best_partition(G, weight='weight')] belongs to the
    python-louvain library; its result is taken as an arbitrary assignment
    [part] of a community id to every node.  The dict it returns lists the
    nodes in [G]'s node order. *)
Definition parent_communities (part : Z -> Z) (G : graph) : list (Z * list Z) :=
  fold_left (fun d n => setdefault_append d (part n) n) (g_nodes G) [].

Fixpoint format_communities (G : graph) (cs : list (Z * list Z)) (counter : nat)
  : list community :=
  match cs with
  | [] => []
  | (cid, members) :: cs' =>
      match members with
      | [] => format_communities G cs' counter
      | _ =>
          let (sgs, counter') := community_sub_groups G members counter in
          match sgs with
          | [] => format_communities G cs' counter'
          | _ => mkCommunity cid (length members) members sgs
                 :: format_communities G cs' counter'
          end
      end
  end.

Definition detect_and_format_communities_hub_spoke (part : Z -> Z) (G : graph)
  : list community :=
  format_communities G (parent_communities part G) 0.

End Partitioner.

Definition all_sub_groups (out : list community) : list sub_group :=
  flat_map sub_groups out.

(** ** [jaccard_similarity] (lines 92-98) *)

(** A cell as [row.get(col)] returns it: a [str], [None] (an SQL NULL, or
    a column absent from the row) or a float [NaN]. *)
Inductive cell := CStr (s : string) | CNone | CNaN.

(** Python [==] on two cells: [NaN] equals nothing, [None] only [None]. *)
Definition py_eq (a b : cell) : bool :=
  match a, b with
  | CStr s, CStr t => String.eqb s t
  | CNone, CNone => true
  | _, _ => false
  end.

(** [str.lower()], on the ASCII letters a Rocq [string] carries. *)
Definition lower_ascii (c : ascii) : ascii :=
  let n := nat_of_ascii c in
  if Nat.leb 65 n && Nat.leb n 90 then ascii_of_nat (n + 32) else c.

Fixpoint lower (s : string) : string :=
  match s with
  | EmptyString => EmptyString
  | String c s' => String (lower_ascii c) (lower s')
  end.

(** [str.split('_')]: every separator splits, empty pieces are kept, and
    the result is never empty ([''.split('_') = ['']]). *)
Fixpoint split_on (sep : ascii) (s : string) : list string :=
  match s with
  | EmptyString => [EmptyString]
  | String c s' =>
      let rest := split_on sep s' in
      if Ascii.eqb c sep then EmptyString :: rest
      else match rest with
           | r :: rs => String c r :: rs
           | [] => [String c EmptyString]
           end
  end.

Definition mem_str (t : string) (l : list string) : bool := existsb (String.eqb t) l.

(** [set(s.lower().split('_'))]. *)
Definition token_set (s : string) : list string :=
  nodup string_dec (split_on "_"%char (lower s)).

Definition jaccard_similarity (str1 str2 : cell) : Q :=
  match str1, str2 with
  | CStr s1, CStr s2 =>
      let a := token_set s1 in
      let b := token_set s2 in
      let intersection := length (filter (fun t => mem_str t b) a) in
      let union := (length a + length (filter (fun t => negb (mem_str t a)) b))%nat in
      if Nat.eqb union 0 then 0%Q
      else (inject_Z (Z.of_nat intersection) / inject_Z (Z.of_nat union))%Q
  | _, _ => 0%Q
  end.

(** ** [build_similarity_graph] (lines 100-126) *)

(** One row of the candidate DataFrame together with its embedding row. *)
Record item := mkItem {
  ID : Z;
  variable_name : cell;
  value_format : cell;
  embedding : list Q
}.

(** [df_lookup.loc[id]] on a frame indexed by [ID]. *)
Definition lookup (df : list item) (id : Z) : option item :=
  find (fun r => Z.eqb (ID r) id) df.

(** Inner product of two vectors, as [IndexFlatIP] scores them. *)
Definition dot (x y : list Q) : Q :=
  fold_right Qplus 0%Q (map (fun p => Qmult (fst p) (snd p)) (combine x y)).

(** [max(0, d)]. *)
Definition py_max0 (d : Q) : Q := if Qle_bool d 0 then 0%Q else d.

(** [structural_score] (line 122). *)
Definition structural_score (vf1 vf2 : cell) : Q :=
  if py_eq vf1 vf2 then 1%Q else 0%Q.

Definition combined_weight (semantic lexical structural : Q) : Q :=
  (semantic * (1 + LEXICAL_BOOST_FACTOR * lexical + STRUCTURAL_BOOST_FACTOR * structural))%Q.

Section Build.

(** [faiss.normalize_L2], applied in place to the embedding matrix before it
    is indexed and queried (a square root, so left abstract). *)
Variable normalize_L2 : list Q -> list Q.

(** The IDs [index.search(q, TOP_K_NEIGHBORS)] returns for a query vector
    ([-1] pads missing results).  Which IDs come back does not matter here;
    each returned score is the inner product of the query with the vector
    stored under that ID. *)
Variable search_ids : list Q -> list Z.

Definition index_search (df : list item) (q : list Q) : list (Z * Q) :=
  map (fun j => (j, match lookup df j with
                    | Some r => dot q (normalize_L2 (embedding r))
                    | None => 0%Q
                    end)) (search_ids q).

(** Body of [for j, neighbor_id_int in enumerate(neighbor_ids_int[0])]. *)
Definition add_neighbor (df : list item) (row : item) (G : graph) (hit : Z * Q) : graph :=
  let (neighbor_id, distance) := hit in
  if Z.eqb neighbor_id (-1) then G
  else if Z.eqb (ID row) neighbor_id || has_edge G (ID row) neighbor_id then G
  else match lookup df neighbor_id with
       | None => G
       | Some neighbor_row =>
           let semantic_score := py_max0 distance in
           let lexical_score :=
             jaccard_similarity (variable_name row) (variable_name neighbor_row) in
           let structural := structural_score (value_format row) (value_format neighbor_row) in
           add_edge G (ID row) neighbor_id (combined_weight semantic_score lexical_score structural)
       end.

Definition build_similarity_graph (df : list item) : graph :=
  fold_left (fun G row =>
               fold_left (add_neighbor df row)
                         (index_search df (normalize_L2 (embedding row))) G)
            df (add_nodes_from empty_graph (map ID df)).

(** The weight the formula gives an unordered pair of rows. *)
Definition pair_weight (r1 r2 : item) : Q :=
  combined_weight (py_max0 (dot (normalize_L2 (embedding r1)) (normalize_L2 (embedding r2))))
                  (jaccard_similarity (variable_name r1) (variable_name r2))
                  (structural_score (value_format r1) (value_format r2)).

End Build.

(** ** [generate_basic_stats_and_samples] (lines 217-265): the counts
    written to the statistics file (lines 223-227); the samples are drawn
    with [random] and the files' text is not embedded. *)

Definition num_parent_communities (community_data : list community) : nat :=
  length community_data.

Definition num_sub_groups (community_data : list community) : nat :=
  length (all_sub_groups community_data).

Definition parent_sizes (community_data : list community) : list nat :=
  map total_cde_count community_data.

Definition sub_group_sizes (community_data : list community) : list nat :=
  map (fun sg => length (sg_members sg)) (all_sub_groups community_data).

(** ** [main] (lines 326-367) *)

Definition bytes := list Byte.byte.

(** The two checkpoint files of [OUTPUT_DIR]: the pickled graph and the
    [.npy] embedding matrix ([None]: the path does not exist). *)
Record disk := mkDisk {
  graph_file : option bytes;
  emb_file : option bytes
}.

Definition set_graph_file (d : disk) (c : option bytes) : disk := mkDisk c (emb_file d).
Definition set_emb_file (d : disk) (c : option bytes) : disk := mkDisk (graph_file d) c.

(** [pickle.load] or [np.load] raising on content it cannot read. *)
Inductive py_exception := UnpicklingError | NpyLoadError.

Inductive outcome (A : Type) :=
| Done (a : A) (d : disk)
| Raised (e : py_exception) (d : disk).
Arguments Done {A} a d.
Arguments Raised {A} e d.

Definition outcome_disk {A} (o : outcome A) : disk :=
  match o with Done _ d | Raised _ d => d end.

Definition succeeded {A} (o : outcome A) : bool :=
  match o with Done _ _ => true | Raised _ _ => false end.

(** A step of [main]: its outcome, and the states the disk passes through
    while it runs, in order; a crash at any moment leaves one of them. *)
Definition io (A : Type) : Type := disk -> outcome A * list disk.

Definition ret {A} (a : A) : io A := fun d => (Done a d, []).

Definition bind {A B} (m : io A) (k : A -> io B) : io B := fun d =>
  match m d with
  | (Done a d', t1) => let (o, t2) := k a d' in (o, t1 ++ t2)
  | (Raised e d', t1) => (Raised e d', t1)
  end.

Notation "x <- m ;; k" := (bind m (fun x => k))
  (at level 61, m at next level, right associativity).

Definition raise {A} (e : py_exception) : io A := fun d => (Raised e d, []).

Definition read_graph_file : io (option bytes) := fun d => (Done (graph_file d) d, []).
Definition read_emb_file : io (option bytes) := fun d => (Done (emb_file d) d, []).

(** The contents the final path holds while [b] is written to it through
    [open(path, 'wb')] (as [pickle.dump] and [np.save] do): opening
    truncates it to the empty file, each write that reaches the file
    extends it to the next of the prefix lengths [flushes], and closing
    leaves all of [b]. *)
Definition write_stages (flushes : list nat) (b : bytes) : list bytes :=
  [] :: map (fun k => firstn k b) flushes ++ [b].

Definition write_graph_file (flushes : list nat) (b : bytes) : io unit := fun d =>
  (Done tt (set_graph_file d (Some b)),
   map (fun p => set_graph_file d (Some p)) (write_stages flushes b)).

Definition write_emb_file (flushes : list nat) (b : bytes) : io unit := fun d =>
  (Done tt (set_emb_file d (Some b)),
   map (fun p => set_emb_file d (Some p)) (write_stages flushes b)).

(** What [main] calls but this file does not embed: the candidate rows
    loaded from SQLite, the sentence-transformer model, the [.npy] and
    pickle codecs ([None]: the loader raises), the lengths of the prefixes
    the file holds between the writes [pickle.dump] (one per frame) and
    [np.save] (header, then the data in one [tofile]) make, the graph
    builder and the partitioner of this run ([best_partition] draws a
    fresh random state and set order follows the per-process hash seed,
    so another run may partition with another function). *)
Record runtime := mkRuntime {
  Row : Type;
  candidate_df : list Row;
  generate_embeddings : list Row -> list (list Q);
  np_save_bytes : list (list Q) -> bytes;
  np_load : bytes -> option (list (list Q));
  pickle_dumps : graph -> bytes;
  pickle_loads : bytes -> option graph;
  npy_flushes : bytes -> list nat;
  pickle_flushes : bytes -> list nat;
  build_graph : list Row -> list (list Q) -> graph;
  detect_communities : graph -> list community
}.

(** [generate_embeddings(...)] followed by [np.save(path, embeddings)]. *)
Definition fresh_embeddings (rt : runtime) : io (list (list Q)) :=
  let m := generate_embeddings rt (candidate_df rt) in
  let b := np_save_bytes rt m in
  _ <- write_emb_file (npy_flushes rt b) b ;; ret m.

(** Lines 345-351. *)
Definition load_or_generate_embeddings (rt : runtime) : io (list (list Q)) :=
  e <- read_emb_file ;;
  match e with
  | Some eb =>
      match np_load rt eb with
      | None => raise NpyLoadError
      | Some m => if Nat.eqb (length m) (length (candidate_df rt)) then ret m
                  else fresh_embeddings rt
      end
  | None => fresh_embeddings rt
  end.

(** [main] up to the community definitions it saves ([None]: the early
    return on an empty candidate frame). *)
Definition main (rt : runtime) : io (option (list community)) :=
  match candidate_df rt with
  | [] => ret None
  | _ =>
      g <- read_graph_file ;;
      similarity_graph <-
        match g with
        | Some b => match pickle_loads rt b with
                    | Some G => ret G
                    | None => raise UnpicklingError
                    end
        | None =>
            embeddings <- load_or_generate_embeddings rt ;;
            let G := build_graph rt (candidate_df rt) embeddings in
            let b := pickle_dumps rt G in
            _ <- write_graph_file (pickle_flushes rt b) b ;;
            ret G
        end ;;
      ret (Some (detect_communities rt similarity_graph))
  end.

(** ** Hub ranking by weighted degree, as section 4.3 of the spec words it *)

(** Weighted degree centrality: the sum of the incident edge weights. *)
Definition weighted_degree (W : graph) (n : Z) : Q :=
  fold_right Qplus 0%Q (map snd (g_adj W n)).

(** Candidate hubs in descending weighted degree. *)
Definition weighted_hub_order (W : graph) : list Z :=
  map fst (sort_desc snd (map (fun n => (n, weighted_degree W n)) (g_nodes W))).

(** The same runtime with the partitioner another run draws. *)
Definition with_partitioner (rt : runtime) (p : graph -> list community) : runtime := {|
  Row := Row rt;
  candidate_df := candidate_df rt;
  generate_embeddings := generate_embeddings rt;
  np_save_bytes := np_save_bytes rt;
  np_load := np_load rt;
  pickle_dumps := pickle_dumps rt;
  pickle_loads := pickle_loads rt;
  npy_flushes := npy_flushes rt;
  pickle_flushes := pickle_flushes rt;
  build_graph := build_graph rt;
  detect_communities := p
|}.

(** ** What a community carries besides its sub-groups *)

(** [community_id], [total_cde_count] and [member_cde_ids] of a community. *)
Definition community_header (c : community) : Z * nat * list Z :=
  (community_id c, total_cde_count c, comm_members c).

(** ** Concrete inputs *)

(** A set iteration order that follows insertion order. *)
Definition identity_order (l : list Z) : list Z := l.

(** A graph given by its node list and weighted edge list, inserted in order. *)
Definition graph_of (ns : list Z) (es : list (Z * Z * Q)) : graph :=
  fold_left (fun G e => add_edge G (fst (fst e)) (snd (fst e)) (snd e))
            es (add_nodes_from empty_graph ns).

(** Two items joined by one edge. *)
Definition pair_graph : graph := graph_of [1; 2] [(1, 2, 1%Q)].

(** The complete graph on the items 1 to 100; the edges of item 100
    weigh 2, all others 1.  Louvain keeps a clique in one community: in a
    split, a node of the smaller side gains modularity by joining the
    larger one, so [best_partition] returns community 0 for every node. *)
Definition heavy_clique : graph :=
  graph_of (map Z.of_nat (seq 1 100))
    (flat_map (fun i => map (fun j => (Z.of_nat i, Z.of_nat j,
                                        if Nat.eqb j 100 then 2%Q else 1%Q))
                            (seq (S i) (100 - i)))
              (seq 1 99)).

(** The working subgraph of the single community holding all of
    [heavy_clique]; sets of the small ints 1 to 100 iterate in ascending
    order, which is their list order. *)
Definition heavy_clique_working : graph :=
  subgraph_copy identity_order heavy_clique (g_nodes heavy_clique).

(** 110 rows with equal embeddings, under an index that answers every
    query with the IDs 1 to 20. *)
Definition clique_rows : list item :=
  map (fun k => mkItem (Z.of_nat k) (CStr "x") (CStr "int") [1; 0]%Q) (seq 1 110).

Definition clique_graph : graph :=
  build_similarity_graph (fun v => v) (fun _ => map Z.of_nat (seq 1 20)) clique_rows.

(** Two rows whose [value_format] is missing (SQL NULL) on both sides. *)
Definition null_format_rows : list item :=
  [mkItem 1 (CStr "age") CNone [1; 0]%Q; mkItem 2 (CStr "sex") CNone [1; 0]%Q].

(** Placeholder contents for the two checkpoints: the [.npy] magic string
    and a pickle header with its STOP opcode.  Only their being non-empty
    matters below. *)
Definition demo_npy_bytes : bytes := [Byte.x93; Byte.x4e; Byte.x55; Byte.x4d; Byte.x50; Byte.x59].
Definition demo_pickle_bytes : bytes := [Byte.x80; Byte.x04; Byte.x2e].

(** [embeddings] put back into the rows, as [build_similarity_graph]
    reads row [i] of the frame together with row [i] of the matrix. *)
Definition with_embeddings (df : list item) (emb : list (list Q)) : list item :=
  map (fun p => mkItem (ID (fst p)) (variable_name (fst p)) (value_format (fst p)) (snd p))
      (combine df emb).

(** The graph of [null_format_rows] under an index that returns every row. *)
Definition demo_graph : graph :=
  build_similarity_graph (fun v => v) (fun _ => map ID null_format_rows) null_format_rows.

(** [main] over [null_format_rows]; the loaders read back what this run
    writes and raise on an empty file ([EOFError: Ran out of input]). *)
Definition demo_runtime : runtime := {|
  Row := item;
  candidate_df := null_format_rows;
  generate_embeddings := map embedding;
  np_save_bytes := fun _ => demo_npy_bytes;
  np_load := fun b => match b with [] => None | _ => Some (map embedding null_format_rows) end;
  pickle_dumps := fun _ => demo_pickle_bytes;
  pickle_loads := fun b => match b with [] => None | _ => Some demo_graph end;
  npy_flushes := fun _ => [];
  pickle_flushes := fun _ => [];
  build_graph := fun df emb =>
    build_similarity_graph (fun v => v) (fun _ => map ID df) (with_embeddings df emb);
  detect_communities := detect_and_format_communities_hub_spoke identity_order (fun _ => 0%Z)
|}.

(** A runtime like [demo_runtime] whose builder always returns
    [demo_graph], so that its pickle reads back every graph it builds. *)
Definition resume_runtime : runtime := {|
  Row := item;
  candidate_df := null_format_rows;
  generate_embeddings := map embedding;
  np_save_bytes := fun _ => demo_npy_bytes;
  np_load := fun b => match b with [] => None | _ => Some (map embedding null_format_rows) end;
  pickle_dumps := fun _ => demo_pickle_bytes;
  pickle_loads := fun b => match b with [] => None | _ => Some demo_graph end;
  npy_flushes := fun _ => [];
  pickle_flushes := fun _ => [];
  build_graph := fun _ _ => demo_graph;
  detect_communities := detect_and_format_communities_hub_spoke identity_order (fun _ => 0%Z)
|}.

(** ** Auxiliary notions of the proofs *)

(** Every neighbour of every node lies in [ns]. *)
Definition keys_in (G : graph) (ns : list Z) : Prop :=
  forall x y, In y (keys (g_adj G x)) -> In y ns.

(** No node is its own neighbour. *)
Definition no_self_loops (G : graph) : Prop :=
  forall x, ~ In x (keys (g_adj G x)).

(** No node lists a neighbour twice. *)
Definition nodup_adj (G : graph) : Prop :=
  forall x, NoDup (keys (g_adj G x)).

(** One [add_edge] of the edge list [subgraph_copy] builds. *)
Definition add_edge_step (H : graph) (e : Z * (Z * Q)) : graph :=
  add_edge H (fst e) (fst (snd e)) (snd (snd e)).

(** The spokes [find_hub] would pair with the hub [h]. *)
Definition spokes_of (W : graph) (h : Z) : list Z :=
  map fst (firstn (MAX_SUB_GROUP_SIZE - 1) (sort_desc snd (g_adj W h))).

(** Invariant of [hub_loop]: [rem] lists the working subgraph's nodes once each, and its edges stay inside it. *)
Definition loop_inv (W : graph) (rem : list Z) : Prop :=
  NoDup rem /\ (forall x, In x (g_nodes W) <-> In x rem) /\ keys_in W (g_nodes W).

(** A sub-group without its [group_id]. *)
Definition sg_triple (sg : sub_group) : group_type * option Z * list Z :=
  (sg_type sg, hub_cde_id sg, sg_members sg).

Definition is_orphan (t : group_type) : bool :=
  match t with Orphan => true | HubAndSpoke => false end.

(** Every edge joins two rows of [df] and carries the weight [pair_weight] gives them. *)
Definition weights_ok (normalize_L2 : list Q -> list Q) (df : list item) (G : graph) : Prop :=
  forall u v w, In (v, w) (g_adj G u) ->
  exists ru rv, lookup df u = Some ru /\ lookup df v = Some rv /\
                w = pair_weight normalize_L2 ru rv.

(** Every adjacency entry has its mirror entry, with the same weight. *)
Definition sym_adj (G : graph) : Prop :=
  forall u v w, In (v, w) (g_adj G u) -> In (u, w) (g_adj G v).

(** Invariant of [build_similarity_graph]: the nodes are the rows' IDs and
    the adjacency is a symmetric dict of dicts. *)
Definition build_inv (df : list item) (G : graph) : Prop :=
  g_nodes G = map ID df /\ sym_adj G /\ nodup_adj G.

(** The edge [add_neighbor] adds for the hit [j] of [row], read from
    either end. *)
Definition hit_edge (df : list item) (row : item) (j x y : Z) : Prop :=
  j <> -1 /\ j <> ID row /\ lookup df j <> None /\
  ((x = ID row /\ y = j) \/ (x = j /\ y = ID row)).

(** What [parent_communities] holds after the nodes [seen]. *)
Definition communities_of (part : Z -> Z) (seen : list Z) (d : list (Z * list Z)) : Prop :=
  NoDup (map fst d) /\
  (forall k ms, In (k, ms) d -> ms = filter (fun n => Z.eqb (part n) k) seen) /\
  (forall n, In n seen -> In (part n) (map fst d)).

(** * Facts about the embedding *)

(** ** Lists, dicts and sorting *)

Lemma mem_In : forall x l, mem x l = true <-> In x l.
Proof.
  intros x l. unfold mem. rewrite existsb_exists. split.
  - intros [y [Hy Heq]]. apply Z.eqb_eq in Heq. subst. exact Hy.
  - intros H. exists x. split; [exact H | apply Z.eqb_refl].
Qed.

Lemma mem_false : forall x l, mem x l = false <-> ~ In x l.
Proof.
  intros x l. rewrite <- mem_In. destruct (mem x l); split; congruence.
Qed.

Lemma in_dset : forall {V} (l : list (Z * V)) k v y w,
  In (y, w) (dset l k v) -> In (y, w) l \/ (y = k /\ w = v).
Proof.
  intros V l k v y w. induction l as [|[k' v'] l IH]; simpl.
  - intros [H | []]. inversion H; auto.
  - destruct (Z.eqb k' k); simpl.
    + intros [H | H]; [inversion H; auto | auto].
    + intros [H | H]; [auto | destruct (IH H); auto].
Qed.

Lemma keys_dset : forall {V} (l : list (Z * V)) k v y,
  In y (keys (dset l k v)) -> In y (keys l) \/ y = k.
Proof.
  intros V l k v y H. unfold keys in H. apply in_map_iff in H.
  destruct H as [[y' w] [Hy Hin]]. simpl in Hy. subst y'.
  destruct (in_dset l k v y w Hin) as [H | [H _]].
  - left. apply in_map_iff. exists (y, w). auto.
  - auto.
Qed.

Lemma nodup_keys_dset : forall {V} (l : list (Z * V)) k v,
  NoDup (keys l) -> NoDup (keys (dset l k v)).
Proof.
  intros V l k v. induction l as [|[k' v'] l IH]; simpl; intros Hnd.
  - constructor; [intros [] | constructor].
  - inversion Hnd as [|? ? Hnot Hnd']; subst.
    destruct (Z.eqb k' k) eqn:E; simpl.
    + apply Z.eqb_eq in E. subst. constructor; assumption.
    + constructor; [|apply IH; assumption].
      intros Hin. apply keys_dset in Hin. destruct Hin as [Hin | Hin].
      * contradiction.
      * subst. rewrite Z.eqb_refl in E. discriminate.
Qed.

Lemma insert_desc_perm : forall {A} (key : A -> Q) x s,
  Permutation (insert_desc key x s) (x :: s).
Proof.
  intros A key x s. induction s as [|y s IH]; simpl.
  - apply Permutation_refl.
  - destruct (negb (Qle_bool (key x) (key y))).
    + apply Permutation_refl.
    + eapply perm_trans; [apply perm_skip, IH | apply perm_swap].
Qed.

Lemma sort_desc_perm : forall {A} (key : A -> Q) xs,
  Permutation (sort_desc key xs) xs.
Proof.
  intros A key xs. unfold sort_desc.
  assert (H : forall s, Permutation (fold_left (fun s x => insert_desc key x s) xs s)
                                    (xs ++ s)).
  { induction xs as [|x xs IH]; intros s; simpl.
    - apply Permutation_refl.
    - eapply perm_trans; [apply IH|].
      eapply perm_trans; [apply Permutation_app_head, insert_desc_perm|].
      apply Permutation_sym, Permutation_middle. }
  rewrite <- (app_nil_r xs) at 2. apply H.
Qed.

(** ** Graph operations *)

Lemma in_adj_add_node : forall G u x p,
  In p (g_adj (add_node G u) x) -> In p (g_adj G x).
Proof.
  intros G u x p. unfold add_node.
  destruct (mem u (g_nodes G)); simpl; [auto|].
  unfold upd. destruct (Z.eqb x u); simpl; tauto.
Qed.

(** An entry of [G._adj[x]] after [add_edge] was there before or is the new
    edge, read from one of its two ends. *)
Lemma in_adj_add_edge : forall G u v w x y w',
  In (y, w') (g_adj (add_edge G u v w) x) ->
  In (y, w') (g_adj G x) \/ (x = u /\ y = v /\ w' = w) \/ (x = v /\ y = u /\ w' = w).
Proof.
  intros G u v w x y w' H. unfold add_edge in H. simpl in H.
  set (G1 := add_node (add_node G u) v) in H.
  assert (HG1 : forall p, In p (g_adj G1 x) -> In p (g_adj G x)).
  { intros p Hp. apply in_adj_add_node, in_adj_add_node in Hp. exact Hp. }
  unfold upd at 1 in H. destruct (Z.eqb x v) eqn:Ev.
  - apply Z.eqb_eq in Ev. subst x.
    apply in_dset in H. destruct H as [H | [Hy Hw]]; [|subst; auto].
    unfold upd in H. destruct (Z.eqb v u) eqn:Eu.
    + apply Z.eqb_eq in Eu. subst. apply in_dset in H.
      destruct H as [H | [Hy Hw]]; [|subst; auto]. left. apply HG1. exact H.
    + left. apply HG1. exact H.
  - unfold upd in H. destruct (Z.eqb x u) eqn:Eu.
    + apply Z.eqb_eq in Eu. subst. apply in_dset in H.
      destruct H as [H | [Hy Hw]]; [|subst; auto]. left. apply HG1. exact H.
    + left. apply HG1. exact H.
Qed.

Lemma keys_add_edge : forall G u v w x y,
  In y (keys (g_adj (add_edge G u v w) x)) ->
  In y (keys (g_adj G x)) \/ (x = u /\ y = v) \/ (x = v /\ y = u).
Proof.
  intros G u v w x y H. unfold keys in *. apply in_map_iff in H.
  destruct H as [[y' w'] [Hy Hin]]. simpl in Hy. subst y'.
  apply in_adj_add_edge in Hin. destruct Hin as [H | [[? [? ?]] | [? [? ?]]]]; auto.
  left. apply in_map_iff. exists (y, w'). auto.
Qed.

Lemma nodup_keys_add_edge : forall G u v w,
  (forall x, NoDup (keys (g_adj G x))) ->
  forall x, NoDup (keys (g_adj (add_edge G u v w) x)).
Proof.
  intros G u v w Hnd.
  assert (Hn : forall H z, (forall x, NoDup (keys (g_adj H x))) ->
                           forall x, NoDup (keys (g_adj (add_node H z) x))).
  { intros H z HH x. unfold add_node. destruct (mem z (g_nodes H)); [apply HH|].
    simpl. unfold upd. destruct (Z.eqb x z); [constructor | apply HH]. }
  intros x. unfold add_edge. simpl. unfold upd.
  pose proof (Hn _ v (Hn _ u Hnd)) as H1.
  destruct (Z.eqb x v); [apply nodup_keys_dset|];
  destruct (Z.eqb _ u); try apply nodup_keys_dset; apply H1.
Qed.

Lemma add_node_present : forall G u, In u (g_nodes G) -> add_node G u = G.
Proof.
  intros G u H. unfold add_node. apply mem_In in H. rewrite H. reflexivity.
Qed.

Lemma nodes_add_edge_present : forall G u v w,
  In u (g_nodes G) -> In v (g_nodes G) -> g_nodes (add_edge G u v w) = g_nodes G.
Proof.
  intros G u v w Hu Hv. unfold add_edge. simpl.
  rewrite (add_node_present G u Hu), (add_node_present G v Hv). reflexivity.
Qed.

Lemma add_nodes_from_nodes : forall l G,
  NoDup (g_nodes G ++ l) -> g_nodes (add_nodes_from G l) = g_nodes G ++ l.
Proof.
  induction l as [|a l IH]; intros G Hnd; simpl.
  - rewrite app_nil_r. reflexivity.
  - assert (Ha : ~ In a (g_nodes G)).
    { intros Hin. apply NoDup_remove_2 in Hnd. apply Hnd. apply in_or_app. auto. }
    unfold add_node. rewrite (proj2 (mem_false a _) Ha).
    rewrite IH; simpl; rewrite <- app_assoc; [reflexivity | exact Hnd].
Qed.

Lemma add_nodes_from_adj : forall l G,
  (forall x, g_adj G x = []) -> forall x, g_adj (add_nodes_from G l) x = [].
Proof.
  induction l as [|a l IH]; intros G HG x; simpl; [apply HG|].
  apply IH. intros y. destruct (g_adj (add_node G a) y) as [|p ps] eqn:E; [reflexivity|].
  exfalso. assert (Hp : In p (g_adj (add_node G a) y)) by (rewrite E; left; reflexivity).
  apply in_adj_add_node in Hp. rewrite HG in Hp. exact Hp.
Qed.

Lemma fold_add_edges_nodes : forall es H,
  (forall e, In e es -> In (fst e) (g_nodes H) /\ In (fst (snd e)) (g_nodes H)) ->
  g_nodes (fold_left add_edge_step es H) = g_nodes H.
Proof.
  induction es as [|e es IH]; intros H Hes; simpl; [reflexivity|].
  destruct (Hes e (or_introl eq_refl)) as [Hu Hv].
  assert (HN : g_nodes (add_edge_step H e) = g_nodes H)
    by (apply nodes_add_edge_present; assumption).
  rewrite IH; [exact HN|]. intros e' He'. rewrite HN. apply Hes. right. exact He'.
Qed.

Lemma fold_add_edges_keys : forall ns es H,
  (forall e, In e es -> In (fst e) ns /\ In (fst (snd e)) ns) ->
  keys_in H ns -> keys_in (fold_left add_edge_step es H) ns.
Proof.
  intros ns. induction es as [|e es IH]; intros H Hes HH; simpl; [exact HH|].
  apply IH; [intros e' He'; apply Hes; right; exact He'|].
  destruct (Hes e (or_introl eq_refl)) as [Hu Hv].
  intros x y Hy. apply keys_add_edge in Hy.
  destruct Hy as [Hy | [[_ Hy] | [_ Hy]]]; subst; [apply (HH x) | |]; assumption.
Qed.

Lemma fold_add_edges_nodup : forall es H,
  nodup_adj H -> nodup_adj (fold_left add_edge_step es H).
Proof.
  induction es as [|e es IH]; intros H HH; simpl; [exact HH|].
  apply IH. intros x. apply nodup_keys_add_edge. exact HH.
Qed.

Lemma fold_add_edges_no_self : forall es H,
  (forall e, In e es -> fst e <> fst (snd e)) ->
  no_self_loops H -> no_self_loops (fold_left add_edge_step es H).
Proof.
  induction es as [|e es IH]; intros H Hes HH; simpl; [exact HH|].
  apply IH; [intros e' He'; apply Hes; right; exact He'|].
  intros x Hx. apply keys_add_edge in Hx.
  destruct Hx as [Hx | [[Hx Hy] | [Hx Hy]]].
  - exact (HH x Hx).
  - subst. apply (Hes e (or_introl eq_refl)). congruence.
  - subst. apply (Hes e (or_introl eq_refl)). congruence.
Qed.

Section SubgraphFacts.
Variable set_iter : list Z -> list Z.
Hypothesis set_iter_perm : forall l, NoDup l -> Permutation (set_iter l) l.

Lemma subgraph_nodes_spec : forall G members,
  NoDup (g_nodes G) -> NoDup members -> incl members (g_nodes G) ->
  NoDup (subgraph_nodes set_iter G members) /\
  (forall x, In x (subgraph_nodes set_iter G members) <-> In x members).
Proof.
  intros G members HG Hm Hinc. unfold subgraph_nodes.
  pose proof (set_iter_perm members Hm) as Hp.
  destruct (Nat.ltb _ _); split.
  - apply NoDup_filter. apply (Permutation_NoDup (Permutation_sym Hp) Hm).
  - intros x. rewrite filter_In, mem_In. split.
    + intros [H _]. apply (Permutation_in _ Hp H).
    + intros H. split; [apply (Permutation_in _ (Permutation_sym Hp) H) | apply Hinc, H].
  - apply NoDup_filter. exact HG.
  - intros x. rewrite filter_In, mem_In. split; [tauto|]. intros H. split; auto.
Qed.

Lemma subgraph_copy_spec : forall G members,
  NoDup (g_nodes G) -> NoDup members -> incl members (g_nodes G) ->
  let C := subgraph_copy set_iter G members in
  NoDup (g_nodes C) /\ (forall x, In x (g_nodes C) <-> In x members) /\
  keys_in C (g_nodes C) /\ nodup_adj C /\ (no_self_loops G -> no_self_loops C).
Proof.
  intros G members HG Hm Hinc C.
  destruct (subgraph_nodes_spec G members HG Hm Hinc) as [Hnd Hns].
  set (ns := subgraph_nodes set_iter G members) in *.
  set (es := flat_map (fun u => map (fun p => (u, p))
               (filter (fun p => mem (fst p) members) (g_adj G u))) ns).
  set (H0 := add_nodes_from empty_graph ns).
  assert (HC : C = fold_left add_edge_step es H0) by reflexivity.
  assert (HN0 : g_nodes H0 = ns) by (apply add_nodes_from_nodes; exact Hnd).
  assert (HA0 : forall x, g_adj H0 x = []) by (apply add_nodes_from_adj; reflexivity).
  assert (Hes : forall e, In e es ->
            In (fst e) ns /\ In (fst (snd e)) ns /\ In (snd e) (g_adj G (fst e))).
  { intros [u p] He. unfold es in He. apply in_flat_map in He.
    destruct He as [u' [Hu' Hp]]. apply in_map_iff in Hp.
    destruct Hp as [p' [Heq Hp']]. inversion Heq; subst.
    apply filter_In in Hp'. destruct Hp' as [Hp1 Hp2]. apply mem_In in Hp2.
    simpl. repeat split; [exact Hu' | apply Hns, Hp2 | exact Hp1]. }
  assert (Hends : forall e, In e es -> In (fst e) ns /\ In (fst (snd e)) ns)
    by (intros e He; destruct (Hes e He) as [? [? ?]]; auto).
  assert (HNC : g_nodes C = ns).
  { rewrite HC, fold_add_edges_nodes, HN0; [reflexivity|]. rewrite HN0. exact Hends. }
  rewrite HNC. split; [exact Hnd|]. split; [exact Hns|]. split; [|split].
  - rewrite HC. apply fold_add_edges_keys; [exact Hends|].
    intros x y Hy. rewrite HA0 in Hy. destruct Hy.
  - rewrite HC. apply fold_add_edges_nodup. intros x. rewrite HA0. constructor.
  - intros Hself. rewrite HC. apply fold_add_edges_no_self.
    + intros e He Heq. destruct (Hes e He) as [_ [_ Hin]].
      apply (Hself (fst e)). apply in_map_iff.
      exists (snd e). split; [symmetry; exact Heq | exact Hin].
    + intros x Hx. rewrite HA0 in Hx. destruct Hx.
Qed.

End SubgraphFacts.

(** ** The hub-and-spoke loop *)

Lemma degree_centrality_keys : forall W, map fst (degree_centrality W) = g_nodes W.
Proof.
  intros W. unfold degree_centrality.
  destruct (g_nodes W) as [|n [|m ns]]; simpl; [reflexivity | reflexivity|].
  rewrite map_map. simpl. rewrite map_id. reflexivity.
Qed.

Lemma NoDup_firstn' : forall {A} n (l : list A), NoDup l -> NoDup (firstn n l).
Proof.
  intros A n l H. rewrite <- (firstn_skipn n l) in H. apply NoDup_app_remove_r in H. exact H.
Qed.

Lemma in_firstn' : forall {A} n (l : list A) x, In x (firstn n l) -> In x l.
Proof.
  intros A n l x H. rewrite <- (firstn_skipn n l). apply in_or_app. left. exact H.
Qed.

Lemma find_hub_cons : forall W c hs,
  find_hub W (c :: hs) =
  if Nat.leb MIN_HUB_SPOKE_GROUP_SIZE (length (c :: spokes_of W c))
  then Some (c, c :: spokes_of W c) else find_hub W hs.
Proof. reflexivity. Qed.

Lemma find_hub_spec : forall W hs h grp,
  find_hub W hs = Some (h, grp) ->
  In h hs /\ grp = h :: spokes_of W h /\ (MIN_HUB_SPOKE_GROUP_SIZE <= length grp)%nat.
Proof.
  intros W hs. induction hs as [|c hs IH]; intros h grp Hf; [discriminate|].
  rewrite find_hub_cons in Hf. destruct (Nat.leb _ _) eqn:E.
  - inversion Hf; subst. apply Nat.leb_le in E. split; [left; reflexivity|]. auto.
  - destruct (IH h grp Hf) as [? ?]. split; [right|]; assumption.
Qed.

Lemma spokes_of_length : forall W h, (length (spokes_of W h) <= MAX_SUB_GROUP_SIZE - 1)%nat.
Proof.
  intros W h. unfold spokes_of. rewrite length_map, length_firstn. apply Nat.le_min_l.
Qed.

Lemma spokes_of_keys : forall W h y, In y (spokes_of W h) -> In y (keys (g_adj W h)).
Proof.
  intros W h y Hy. unfold spokes_of, keys in *. apply in_map_iff in Hy.
  destruct Hy as [p [Hp Hin]]. apply in_map_iff. exists p. split; [exact Hp|].
  apply in_firstn' in Hin.
  apply (Permutation_in _ (sort_desc_perm snd (g_adj W h)) Hin).
Qed.

Lemma spokes_of_nodup : forall W h,
  NoDup (keys (g_adj W h)) -> NoDup (spokes_of W h).
Proof.
  intros W h Hnd. unfold spokes_of. rewrite <- firstn_map. apply NoDup_firstn'.
  apply (Permutation_NoDup (Permutation_map fst (Permutation_sym (sort_desc_perm snd _)))).
  exact Hnd.
Qed.

(** The hub chosen in a round is a node of the working subgraph. *)
Lemma find_hub_in_nodes : forall W c cs h grp,
  degree_centrality W = c :: cs ->
  find_hub W (map fst (sort_desc snd (c :: cs))) = Some (h, grp) ->
  In h (g_nodes W).
Proof.
  intros W c cs h grp Hc Hf. apply find_hub_spec in Hf. destruct Hf as [Hin _].
  rewrite <- degree_centrality_keys, Hc.
  apply (Permutation_in _ (Permutation_map fst (sort_desc_perm snd (c :: cs))) Hin).
Qed.

Lemma keys_filter_out : forall (l : list (Z * Q)) S,
  keys (filter (fun p => negb (mem (fst p) S)) l) = filter (fun y => negb (mem y S)) (keys l).
Proof.
  induction l as [|[y w] l IH]; intros S; simpl; [reflexivity|].
  destruct (negb (mem y S)); simpl; rewrite IH; reflexivity.
Qed.

(** Taking a group out of the remaining set loses nothing: the
    (de-duplicated) group and the survivors together are [rem]. *)
Lemma perm_take_group : forall rem grp,
  NoDup rem -> incl grp rem ->
  Permutation (nodup Z.eq_dec grp ++ filter (fun n => negb (mem n grp)) rem) rem.
Proof.
  intros rem grp Hnd Hinc. apply NoDup_Permutation.
  - apply NoDup_app; [apply NoDup_nodup | apply NoDup_filter, Hnd|].
    intros a Ha Hb. apply nodup_In in Ha. apply filter_In in Hb.
    destruct Hb as [_ Hb]. apply mem_In in Ha. rewrite Ha in Hb. discriminate.
  - exact Hnd.
  - intros x. rewrite in_app_iff, nodup_In, filter_In. split.
    + intros [H | [H _]]; [apply Hinc|]; exact H.
    + intros H. destruct (mem x grp) eqn:E.
      * left. apply mem_In. exact E.
      * right. auto.
Qed.

Lemma loop_inv_step : forall W rem h grp,
  loop_inv W rem -> In h (g_nodes W) -> grp = h :: spokes_of W h ->
  incl grp rem /\
  loop_inv (remove_nodes_from W grp) (filter (fun n => negb (mem n grp)) rem).
Proof.
  intros W rem h grp [Hnd [Hnr Hk]] Hh Hg. split.
  - intros y Hy. rewrite Hg in Hy. apply Hnr. destruct Hy as [Hy | Hy].
    + subst. exact Hh.
    + apply (Hk h). apply spokes_of_keys. exact Hy.
  - split; [apply NoDup_filter, Hnd|]. split.
    + intros x. simpl. rewrite !filter_In, Hnr. tauto.
    + intros x y Hy. simpl in *. destruct (mem x grp); [destruct Hy|].
      rewrite keys_filter_out, filter_In in Hy. destruct Hy as [Hy Hm].
      apply filter_In. split; [apply (Hk x), Hy | exact Hm].
Qed.

Lemma hub_loop_S : forall fuel W rem,
  hub_loop (S fuel) W rem =
  if Nat.leb MIN_ORPHAN_GROUP_SIZE (length rem) then
    match degree_centrality W with
    | [] => ([], rem)
    | centrality =>
        match find_hub W (map fst (sort_desc snd centrality)) with
        | None => ([], rem)
        | Some (hub_node, hub_spoke_group) =>
            let (gs, orphans) :=
              hub_loop fuel (remove_nodes_from W hub_spoke_group)
                       (filter (fun n => negb (mem n hub_spoke_group)) rem) in
            ((hub_node, hub_spoke_group) :: gs, orphans)
        end
    end
  else ([], rem).
Proof. reflexivity. Qed.

Lemma hub_loop_partition : forall fuel W rem,
  loop_inv W rem ->
  Permutation (flat_map (fun g => nodup Z.eq_dec (snd g)) (fst (hub_loop fuel W rem))
               ++ snd (hub_loop fuel W rem)) rem
  /\ NoDup (snd (hub_loop fuel W rem)).
Proof.
  induction fuel as [|fuel IH]; intros W rem Hinv.
  - split; [apply Permutation_refl | apply Hinv].
  - rewrite hub_loop_S. destruct (Nat.leb _ _); [|simpl; split; [apply Permutation_refl | apply Hinv]].
    destruct (degree_centrality W) as [|c cs] eqn:Hc;
      [simpl; split; [apply Permutation_refl | apply Hinv]|].
    destruct (find_hub W _) as [[h grp]|] eqn:Hf;
      [|simpl; split; [apply Permutation_refl | apply Hinv]].
    pose proof (find_hub_in_nodes W c cs h grp Hc Hf) as Hh.
    apply find_hub_spec in Hf. destruct Hf as [_ [Hg _]].
    destruct (loop_inv_step W rem h grp Hinv Hh Hg) as [Hinc Hinv'].
    destruct (IH _ _ Hinv') as [Hp Hnd].
    destruct (hub_loop fuel _ _) as [gs orph] eqn:E. simpl in *. split; [|exact Hnd].
    rewrite <- app_assoc.
    eapply perm_trans; [apply Permutation_app_head, Hp|].
    apply perm_take_group; [apply Hinv | exact Hinc].
Qed.


(** Every accepted group is its hub followed by spokes, and its size lies
    within the hub-and-spoke bounds. *)
Lemma hub_loop_groups : forall fuel W rem,
  Forall (fun g => (exists sp, snd g = fst g :: sp) /\
                   (MIN_HUB_SPOKE_GROUP_SIZE <= length (snd g) <= MAX_SUB_GROUP_SIZE)%nat)
         (fst (hub_loop fuel W rem)).
Proof.
  induction fuel as [|fuel IH]; intros W rem; [constructor|].
  rewrite hub_loop_S. destruct (Nat.leb _ _); [|constructor].
  destruct (degree_centrality W) as [|c cs]; [constructor|].
  destruct (find_hub W _) as [[h grp]|] eqn:Hf; [|constructor].
  apply find_hub_spec in Hf. destruct Hf as [_ [Hg Hmin]].
  specialize (IH (remove_nodes_from W grp) (filter (fun n => negb (mem n grp)) rem)).
  destruct (hub_loop fuel _ _) as [gs orph]. simpl in *. constructor; [|exact IH].
  simpl. split; [exists (spokes_of W h); exact Hg|]. split; [exact Hmin|].
  rewrite Hg. simpl. pose proof (spokes_of_length W h). unfold MAX_SUB_GROUP_SIZE in *. lia.
Qed.

Lemma remove_nodes_simple : forall W S,
  nodup_adj W -> no_self_loops W ->
  nodup_adj (remove_nodes_from W S) /\ no_self_loops (remove_nodes_from W S).
Proof.
  intros W S Hnd Hself. split; intros x; simpl; destruct (mem x S).
  - constructor.
  - rewrite keys_filter_out. apply NoDup_filter, Hnd.
  - intros [].
  - rewrite keys_filter_out, filter_In. intros [Hx _]. exact (Hself x Hx).
Qed.

(** Without self-loops, a group never repeats an ID. *)
Lemma hub_loop_groups_nodup : forall fuel W rem,
  nodup_adj W -> no_self_loops W ->
  Forall (fun g => NoDup (snd g)) (fst (hub_loop fuel W rem)).
Proof.
  induction fuel as [|fuel IH]; intros W rem Hnd Hself; [constructor|].
  rewrite hub_loop_S. destruct (Nat.leb _ _); [|constructor].
  destruct (degree_centrality W) as [|c cs]; [constructor|].
  destruct (find_hub W _) as [[h grp]|] eqn:Hf; [|constructor].
  apply find_hub_spec in Hf. destruct Hf as [_ [Hg _]].
  destruct (remove_nodes_simple W grp Hnd Hself) as [Hnd' Hself'].
  specialize (IH (remove_nodes_from W grp) (filter (fun n => negb (mem n grp)) rem) Hnd' Hself').
  destruct (hub_loop fuel _ _) as [gs orph]. simpl in *. constructor; [|exact IH].
  simpl. rewrite Hg. constructor.
  - intros Hin. apply spokes_of_keys in Hin. exact (Hself h Hin).
  - apply spokes_of_nodup, Hnd.
Qed.

(** ** Orphan batches *)

Lemma firstn_add' : forall {A} n k (l : list A),
  firstn (n + k) l = firstn n l ++ firstn k (skipn n l).
Proof.
  intros A n. induction n as [|n IH]; intros k l; [reflexivity|].
  destruct l as [|a l]; simpl.
  - rewrite firstn_nil. reflexivity.
  - rewrite IH. reflexivity.
Qed.

Lemma concat_batches : forall n (l : list Z) m a,
  concat (map (fun k => firstn n (skipn (k * n) l)) (seq a m)) =
  firstn (m * n) (skipn (a * n) l).
Proof.
  intros n l. induction m as [|m IH]; intros a; [reflexivity|].
  simpl. rewrite IH. simpl. rewrite <- skipn_skipn, <- firstn_add'. reflexivity.
Qed.

Lemma batch_count_bound : forall len,
  (len <= (len + (MIN_ORPHAN_GROUP_SIZE - 1)) / MIN_ORPHAN_GROUP_SIZE * MIN_ORPHAN_GROUP_SIZE
   < len + MIN_ORPHAN_GROUP_SIZE)%nat.
Proof.
  intros len. unfold MIN_ORPHAN_GROUP_SIZE. simpl (100 - 1)%nat.
  pose proof (Nat.div_mod_eq (len + 99) 100) as Hd.
  pose proof (Nat.mod_upper_bound (len + 99) 100 ltac:(lia)) as Hm.
  lia.
Qed.

Lemma concat_orphan_batches : forall l, concat (orphan_batches l) = l.
Proof.
  intros l. unfold orphan_batches. rewrite concat_batches. simpl skipn.
  apply firstn_all2. pose proof (batch_count_bound (length l)). lia.
Qed.

Lemma filter_all_false : forall {A} (f : A -> bool) l,
  (forall x, In x l -> f x = false) -> filter f l = [].
Proof.
  intros A f l H. induction l as [|x l IH]; simpl; [reflexivity|].
  rewrite (H x (or_introl eq_refl)). apply IH. intros y Hy. apply H. right. exact Hy.
Qed.

(** Only the final batch can be shorter than [MIN_ORPHAN_GROUP_SIZE]. *)
Lemma orphan_batches_short : forall l,
  (length (filter (fun b => Nat.ltb (length b) MIN_ORPHAN_GROUP_SIZE) (orphan_batches l))
   <= 1)%nat.
Proof.
  intros l. unfold orphan_batches.
  pose proof (batch_count_bound (length l)) as Hb.
  set (m := ((length l + (MIN_ORPHAN_GROUP_SIZE - 1)) / MIN_ORPHAN_GROUP_SIZE)%nat) in *.
  destruct m as [|p] eqn:Em; [simpl; lia|].
  replace (S p) with (p + 1)%nat by lia. rewrite seq_app, map_app, filter_app, length_app.
  rewrite filter_all_false; [simpl; destruct (Nat.ltb _ _); simpl; lia|].
  intros b Hin. apply in_map_iff in Hin. destruct Hin as [k [Hk Hin]]. subst b.
  apply in_seq in Hin. apply Nat.ltb_ge. rewrite length_firstn, length_skipn.
  unfold MIN_ORPHAN_GROUP_SIZE in *. lia.
Qed.

(** ** Numbering, communities and the whole output *)

Lemma number_groups_triples : forall c gs, map sg_triple (number_groups c gs) = gs.
Proof.
  intros c gs. revert c. induction gs as [|[[t h] ms] gs IH]; intros c; simpl;
    [reflexivity | rewrite IH; reflexivity].
Qed.

Lemma in_number_groups : forall c gs sg,
  In sg (number_groups c gs) -> In (sg_triple sg) gs.
Proof.
  intros c gs sg H. rewrite <- (number_groups_triples c gs). apply in_map. exact H.
Qed.

Lemma flat_map_number_groups : forall (g : list Z -> list Z) c gs,
  flat_map (fun sg => g (sg_members sg)) (number_groups c gs) =
  flat_map (fun t => g (snd t)) gs.
Proof.
  intros g c gs. revert c. induction gs as [|[[t h] ms] gs IH]; intros c; simpl;
    [reflexivity | rewrite IH; reflexivity].
Qed.

Lemma length_filter_number_groups : forall (f : group_type * option Z * list Z -> bool) c gs,
  length (filter (fun sg => f (sg_triple sg)) (number_groups c gs)) = length (filter f gs).
Proof.
  intros f c gs. revert c. induction gs as [|[[t h] ms] gs IH]; intros c; simpl;
    [reflexivity|]. unfold sg_triple at 1. simpl. destruct (f (t, h, ms)); simpl; rewrite IH; reflexivity.
Qed.

Lemma community_sub_groups_unfold : forall set_iter G members counter,
  fst (community_sub_groups set_iter G members counter) =
  number_groups counter
    (map (fun p => (HubAndSpoke, Some (fst p), snd p))
         (fst (hub_loop (length (set_iter members)) (subgraph_copy set_iter G members)
                        (set_iter members)))
     ++ map (fun b => (Orphan, None, b))
         (orphan_batches (snd (hub_loop (length (set_iter members))
                                 (subgraph_copy set_iter G members) (set_iter members))))).
Proof.
  intros. unfold community_sub_groups. destruct (hub_loop _ _ _). reflexivity.
Qed.

Lemma in_format_communities : forall set_iter G cs counter c,
  In c (format_communities set_iter G cs counter) ->
  exists cid members k, In (cid, members) cs /\ members <> [] /\
    c = mkCommunity cid (length members) members
          (fst (community_sub_groups set_iter G members k)).
Proof.
  intros set_iter G cs. induction cs as [|[cid members] cs IH]; intros counter c Hin;
    simpl in Hin; [destruct Hin|].
  destruct members as [|m ms].
  - destruct (IH _ _ Hin) as [cid' [mem' [k [H1 H2]]]].
    exists cid', mem', k. split; [right; exact H1 | exact H2].
  - destruct (community_sub_groups set_iter G (m :: ms) counter) as [sgs c'] eqn:E.
    assert (Hrec : In c (format_communities set_iter G cs c') ->
      exists cid0 members0 k, In (cid0, members0) ((cid, m :: ms) :: cs) /\ members0 <> [] /\
        c = mkCommunity cid0 (length members0) members0
              (fst (community_sub_groups set_iter G members0 k))).
    { intros H. destruct (IH _ _ H) as [cid' [mem' [k [H1 H2]]]].
      exists cid', mem', k. split; [right; exact H1 | exact H2]. }
    destruct sgs as [|sg sgs]; [apply Hrec, Hin|].
    destruct Hin as [Hin | Hin]; [|apply Hrec, Hin].
    exists cid, (m :: ms), counter. split; [left; reflexivity|].
    split; [discriminate|]. rewrite E. symmetry. exact Hin.
Qed.

Lemma filter_map' : forall {A B} (f : B -> bool) (g : A -> B) l,
  filter f (map g l) = map g (filter (fun x => f (g x)) l).
Proof.
  intros A B f g l. induction l as [|x l IH]; simpl; [reflexivity|].
  destruct (f (g x)); simpl; rewrite IH; reflexivity.
Qed.

(** The sub-groups of one community obey the size bounds. *)
Lemma community_sub_groups_bounds : forall set_iter G members counter,
  let sgs := fst (community_sub_groups set_iter G members counter) in
  (forall sg, In sg sgs -> sg_type sg = HubAndSpoke ->
     (MIN_HUB_SPOKE_GROUP_SIZE <= length (sg_members sg) <= MAX_SUB_GROUP_SIZE)%nat) /\
  (length (filter (fun sg => is_orphan (sg_type sg) &&
                             Nat.ltb (length (sg_members sg)) MIN_ORPHAN_GROUP_SIZE) sgs)
   <= 1)%nat.
Proof.
  intros set_iter G members counter sgs. unfold sgs.
  rewrite community_sub_groups_unfold.
  pose proof (hub_loop_groups (length (set_iter members)) (subgraph_copy set_iter G members)
                (set_iter members)) as Hg.
  destruct (hub_loop _ _ _) as [hubs orph]. simpl. split.
  - intros sg Hin Ht. apply in_number_groups, in_app_iff in Hin.
    destruct Hin as [Hin | Hin]; apply in_map_iff in Hin; destruct Hin as [p [Hp Hin]].
    + simpl in Hg. rewrite Forall_forall in Hg. destruct (Hg p Hin) as [_ Hb].
      assert (Hm : sg_members sg = snd p) by (unfold sg_triple in Hp; inversion Hp; reflexivity).
      rewrite Hm. exact Hb.
    + unfold sg_triple in Hp. inversion Hp. congruence.
  - pose proof (length_filter_number_groups
             (fun t => is_orphan (fst (fst t)) && Nat.ltb (length (snd t)) MIN_ORPHAN_GROUP_SIZE))
      as Hl. cbn [sg_triple fst snd] in Hl. rewrite Hl.
    rewrite filter_app, length_app, (filter_all_false _ (map _ hubs)).
    + rewrite filter_map', length_map. simpl. apply orphan_batches_short.
    + intros t Ht. apply in_map_iff in Ht. destruct Ht as [p [Hp _]]. subst t. reflexivity.
Qed.

Lemma subgraph_copy_simple : forall set_iter G members,
  no_self_loops G ->
  nodup_adj (subgraph_copy set_iter G members) /\
  no_self_loops (subgraph_copy set_iter G members).
Proof.
  intros set_iter G members Hself.
  assert (HA0 : forall x, g_adj (add_nodes_from empty_graph
                                   (subgraph_nodes set_iter G members)) x = [])
    by (apply add_nodes_from_adj; reflexivity).
  unfold subgraph_copy. split.
  - apply fold_add_edges_nodup. intros x. rewrite HA0. constructor.
  - apply fold_add_edges_no_self.
    + intros [u [v w]] He Heq. simpl in Heq. subst v. apply in_flat_map in He.
      destruct He as [u' [_ Hp]]. apply in_map_iff in Hp.
      destruct Hp as [p [Heq Hp]]. inversion Heq; subst.
      apply filter_In in Hp. destruct Hp as [Hp _].
      apply (Hself u). apply in_map_iff. exists (u, w). auto.
    + intros x Hx. rewrite HA0 in Hx. destruct Hx.
Qed.

(** The hub-and-spoke groups of one community start with their hub and,
    without self-loops, repeat no ID. *)
Lemma community_sub_groups_hubs : forall set_iter G members counter,
  no_self_loops G ->
  forall sg, In sg (fst (community_sub_groups set_iter G members counter)) ->
  sg_type sg = HubAndSpoke ->
  exists h sp, hub_cde_id sg = Some h /\ sg_members sg = h :: sp /\ NoDup (sg_members sg).
Proof.
  intros set_iter G members counter Hself sg Hin Ht.
  rewrite community_sub_groups_unfold in Hin.
  destruct (subgraph_copy_simple set_iter G members Hself) as [Hnd Hs].
  pose proof (hub_loop_groups (length (set_iter members)) (subgraph_copy set_iter G members)
                (set_iter members)) as Hg.
  pose proof (hub_loop_groups_nodup (length (set_iter members))
                (subgraph_copy set_iter G members) (set_iter members) Hnd Hs) as Hn.
  destruct (hub_loop _ _ _) as [hubs orph]. simpl in *.
  apply in_number_groups, in_app_iff in Hin.
  destruct Hin as [Hin | Hin]; apply in_map_iff in Hin; destruct Hin as [p [Hp Hin]];
    unfold sg_triple in Hp; [|inversion Hp; congruence].
  assert (Hh : hub_cde_id sg = Some (fst p)) by (inversion Hp; reflexivity).
  assert (Hm : sg_members sg = snd p) by (inversion Hp; reflexivity).
  rewrite Forall_forall in Hg, Hn. destruct (Hg p Hin) as [[sp Hsp] _].
  exists (fst p), sp. rewrite Hm. repeat split; [exact Hh | exact Hsp | apply Hn, Hin].
Qed.

Lemma nodup_fixed : forall l, NoDup l -> nodup Z.eq_dec l = l.
Proof. intros l H. apply nodup_fixed_point. exact H. Qed.

Lemma nodup_concat_member : forall (L : list (list Z)) l,
  NoDup (concat L) -> In l L -> NoDup l.
Proof.
  induction L as [|l' L IH]; intros l Hnd Hin; [destruct Hin|].
  simpl in Hnd. destruct Hin as [Hin | Hin].
  - subst. apply NoDup_app_remove_r in Hnd. exact Hnd.
  - apply NoDup_app_remove_l in Hnd. apply IH; assumption.
Qed.

(** The sub-groups of one community cover its members exactly once. *)
Lemma community_sub_groups_partition : forall set_iter G members counter,
  (forall l, NoDup l -> Permutation (set_iter l) l) ->
  NoDup (g_nodes G) -> NoDup members -> incl members (g_nodes G) ->
  Permutation (flat_map (fun sg => nodup Z.eq_dec (sg_members sg))
                 (fst (community_sub_groups set_iter G members counter))) members.
Proof.
  intros set_iter G members counter Hset HG Hm Hinc.
  pose proof (Hset members Hm) as Hp.
  destruct (subgraph_copy_spec set_iter Hset G members HG Hm Hinc) as [_ [Hn [Hk _]]].
  assert (Hinv : loop_inv (subgraph_copy set_iter G members) (set_iter members)).
  { split; [apply (Permutation_NoDup (Permutation_sym Hp) Hm)|]. split; [|exact Hk].
    intros x. rewrite Hn. split; intros H;
      [apply (Permutation_in _ (Permutation_sym Hp) H) | apply (Permutation_in _ Hp H)]. }
  destruct (hub_loop_partition (length (set_iter members)) _ _ Hinv) as [Hperm Hnd].
  rewrite community_sub_groups_unfold, flat_map_number_groups, flat_map_app.
  destruct (hub_loop _ _ _) as [hubs orph]. simpl in *.
  eapply perm_trans; [|eapply perm_trans; [exact Hperm | exact Hp]].
  apply Permutation_app.
  - rewrite flat_map_concat_map, map_map, <- flat_map_concat_map. apply Permutation_refl.
  - rewrite flat_map_concat_map, map_map. simpl.
    rewrite <- (concat_orphan_batches orph) at 2.
    replace (map _ (orphan_batches orph)) with (orphan_batches orph); [apply Permutation_refl|].
    symmetry. rewrite <- map_id. apply map_ext_in. intros b Hb. apply nodup_fixed.
    apply (nodup_concat_member (orphan_batches orph)); [rewrite concat_orphan_batches|]; assumption.
Qed.

Lemma setdefault_append_perm : forall d k n,
  Permutation (concat (map snd (setdefault_append d k n))) (concat (map snd d) ++ [n]).
Proof.
  induction d as [|[k' ms] d IH]; intros k n; simpl; [apply Permutation_refl|].
  destruct (Z.eqb k' k); simpl.
  - rewrite <- !app_assoc. apply Permutation_app_head. apply Permutation_app_comm.
  - rewrite <- app_assoc. apply Permutation_app_head, IH.
Qed.

Lemma parent_communities_perm : forall part G,
  Permutation (concat (map snd (parent_communities part G))) (g_nodes G).
Proof.
  intros part G. unfold parent_communities.
  assert (H : forall l d, Permutation
            (concat (map snd (fold_left (fun d n => setdefault_append d (part n) n) l d)))
            (concat (map snd d) ++ l)).
  { induction l as [|n l IH]; intros d; simpl; [rewrite app_nil_r; apply Permutation_refl|].
    eapply perm_trans; [apply IH|]. rewrite (app_assoc _ [n] l).
    apply Permutation_app_tail, setdefault_append_perm. }
  apply (H (g_nodes G) []).
Qed.

Lemma format_communities_perm : forall set_iter G cs counter,
  (forall l, NoDup l -> Permutation (set_iter l) l) -> NoDup (g_nodes G) ->
  Forall (fun p => NoDup (snd p) /\ incl (snd p) (g_nodes G)) cs ->
  Permutation
    (flat_map (fun c => flat_map (fun sg => nodup Z.eq_dec (sg_members sg)) (sub_groups c))
              (format_communities set_iter G cs counter))
    (concat (map snd cs)).
Proof.
  intros set_iter G cs. induction cs as [|[cid members] cs IH];
    intros counter Hset HG Hcs; simpl; [apply Permutation_refl|].
  inversion Hcs as [|? ? [Hm Hinc] Hcs']; subst.
  destruct members as [|m ms]; [apply IH; assumption|].
  pose proof (community_sub_groups_partition set_iter G (m :: ms) counter Hset HG Hm Hinc) as Hp.
  destruct (community_sub_groups set_iter G (m :: ms) counter) as [sgs c'] eqn:E.
  simpl in Hp. destruct sgs as [|sg sgs].
  - apply Permutation_nil in Hp. discriminate.
  - exact (Permutation_app Hp (IH c' Hset HG Hcs')).
Qed.

Lemma flat_map_all_sub_groups : forall (f : sub_group -> list Z) out,
  flat_map f (all_sub_groups out) = flat_map (fun c => flat_map f (sub_groups c)) out.
Proof.
  intros f out. unfold all_sub_groups. induction out as [|c out IH]; simpl; [reflexivity|].
  rewrite flat_map_app, IH. reflexivity.
Qed.

(** ** Edge weights of the similarity graph *)

Lemma mem_str_In : forall t l, mem_str t l = true <-> In t l.
Proof.
  intros t l. unfold mem_str. rewrite existsb_exists. split.
  - intros [y [Hy Heq]]. apply String.eqb_eq in Heq. subst. exact Hy.
  - intros H. exists t. split; [exact H | apply String.eqb_refl].
Qed.

Lemma length_filter_split : forall {A} (f : A -> bool) l,
  length l = (length (filter f l) + length (filter (fun x => negb (f x)) l))%nat.
Proof.
  intros A f l. induction l as [|x l IH]; simpl; [reflexivity|].
  destruct (f x); simpl; lia.
Qed.

Lemma inter_length_sym : forall a b, NoDup a -> NoDup b ->
  length (filter (fun t => mem_str t b) a) = length (filter (fun t => mem_str t a) b).
Proof.
  intros a b Ha Hb. apply Permutation_length, NoDup_Permutation;
    try (apply NoDup_filter; assumption).
  intros x. rewrite !filter_In, !mem_str_In. tauto.
Qed.

Lemma jaccard_similarity_sym : forall c1 c2,
  jaccard_similarity c1 c2 = jaccard_similarity c2 c1.
Proof.
  intros [s1| |] [s2| |]; try reflexivity. unfold jaccard_similarity.
  set (a := token_set s1). set (b := token_set s2).
  assert (Ha : NoDup a) by apply NoDup_nodup.
  assert (Hb : NoDup b) by apply NoDup_nodup.
  assert (Hi := inter_length_sym a b Ha Hb).
  assert (Hu : (length a + length (filter (fun t => negb (mem_str t a)) b) =
                length b + length (filter (fun t => negb (mem_str t b)) a))%nat).
  { rewrite (length_filter_split (fun t => mem_str t b) a) at 1.
    rewrite (length_filter_split (fun t => mem_str t a) b) at 1. lia. }
  rewrite Hi, Hu. reflexivity.
Qed.

Lemma Qmult_comm_eq : forall x y : Q, (x * y)%Q = (y * x)%Q.
Proof.
  intros [a b] [c d]. unfold Qmult. simpl. rewrite Z.mul_comm, Pos.mul_comm. reflexivity.
Qed.

Lemma dot_sym : forall x y, dot x y = dot y x.
Proof.
  unfold dot. induction x as [|a x IH]; intros [|b y]; try reflexivity.
  simpl. rewrite Qmult_comm_eq. f_equal. apply IH.
Qed.

Lemma py_eq_sym : forall a b, py_eq a b = py_eq b a.
Proof.
  intros [s| |] [t| |]; try reflexivity. simpl. apply String.eqb_sym.
Qed.

Lemma pair_weight_sym : forall normalize_L2 r1 r2,
  pair_weight normalize_L2 r1 r2 = pair_weight normalize_L2 r2 r1.
Proof.
  intros normalize_L2 r1 r2. unfold pair_weight, structural_score.
  rewrite dot_sym, jaccard_similarity_sym, py_eq_sym. reflexivity.
Qed.

Lemma lookup_of_row : forall df row, NoDup (map ID df) -> In row df -> lookup df (ID row) = Some row.
Proof.
  induction df as [|r df IH]; intros row Hnd Hin; [destruct Hin|].
  simpl in *. inversion Hnd as [|? ? Hnot Hnd']; subst.
  destruct Hin as [Hin | Hin].
  - subst. rewrite Z.eqb_refl. reflexivity.
  - destruct (Z.eqb (ID r) (ID row)) eqn:E.
    + apply Z.eqb_eq in E. exfalso. apply Hnot. rewrite E. apply in_map. exact Hin.
    + apply IH; assumption.
Qed.

Lemma add_neighbor_weights : forall normalize_L2 df row G hit,
  lookup df (ID row) = Some row ->
  snd hit = match lookup df (fst hit) with
            | Some r => dot (normalize_L2 (embedding row)) (normalize_L2 (embedding r))
            | None => 0%Q
            end ->
  weights_ok normalize_L2 df G -> weights_ok normalize_L2 df (add_neighbor df row G hit).
Proof.
  intros normalize_L2 df row G [j d] Hrow Hd HG. simpl in Hd. unfold add_neighbor.
  destruct (Z.eqb j (-1)); [exact HG|].
  destruct (Z.eqb (ID row) j || has_edge G (ID row) j); [exact HG|].
  destruct (lookup df j) as [nrow|] eqn:Hj; [|exact HG]. subst d.
  intros u v w Hin. apply in_adj_add_edge in Hin.
  destruct Hin as [Hin | [[Hu [Hv Hw]] | [Hu [Hv Hw]]]].
  - apply (HG u v w Hin).
  - subst. exists row, nrow. repeat split; assumption.
  - subst. exists nrow, row. repeat split; try assumption. apply pair_weight_sym.
Qed.

Lemma add_neighbor_no_self : forall df row G hit,
  no_self_loops G -> no_self_loops (add_neighbor df row G hit).
Proof.
  intros df row G [j d] HG. unfold add_neighbor.
  destruct (Z.eqb j (-1)); [exact HG|].
  destruct (Z.eqb (ID row) j) eqn:E; [exact HG|]. simpl.
  destruct (has_edge G (ID row) j); [exact HG|].
  destruct (lookup df j); [|exact HG].
  apply Z.eqb_neq in E. intros x Hx. apply keys_add_edge in Hx.
  destruct Hx as [Hx | [[? ?] | [? ?]]]; [exact (HG x Hx) | subst; congruence | subst; congruence].
Qed.

Lemma add_node_nodup : forall G u, NoDup (g_nodes G) -> NoDup (g_nodes (add_node G u)).
Proof.
  intros G u H. unfold add_node. destruct (mem u (g_nodes G)) eqn:E; [exact H|].
  simpl. apply NoDup_app; [exact H | repeat constructor; intros []|].
  intros a Ha [Hb | []]. subst. apply mem_false in E. contradiction.
Qed.

Lemma add_neighbor_nodup : forall df row G hit,
  NoDup (g_nodes G) -> NoDup (g_nodes (add_neighbor df row G hit)).
Proof.
  intros df row G [j d] HG. unfold add_neighbor.
  destruct (Z.eqb j (-1)); [exact HG|].
  destruct (Z.eqb (ID row) j || has_edge G (ID row) j); [exact HG|].
  destruct (lookup df j); [|exact HG].
  unfold add_edge. simpl. apply add_node_nodup, add_node_nodup, HG.
Qed.

Lemma index_search_scores : forall normalize_L2 search_ids df q hit,
  In hit (index_search normalize_L2 search_ids df q) ->
  snd hit = match lookup df (fst hit) with
            | Some r => dot q (normalize_L2 (embedding r))
            | None => 0%Q
            end.
Proof.
  intros normalize_L2 search_ids df q hit Hin. unfold index_search in Hin.
  apply in_map_iff in Hin. destruct Hin as [j [Hj _]]. subst hit. reflexivity.
Qed.

(** Every edge the builder inserts carries the weight of its unordered
    pair; it has no self-loops and no repeated node. *)
Lemma build_similarity_graph_spec : forall normalize_L2 search_ids df,
  NoDup (map ID df) ->
  let G := build_similarity_graph normalize_L2 search_ids df in
  weights_ok normalize_L2 df G /\ no_self_loops G /\ NoDup (g_nodes G).
Proof.
  intros normalize_L2 search_ids df Hnd G. unfold G, build_similarity_graph.
  set (G0 := add_nodes_from empty_graph (map ID df)).
  assert (HA0 : forall x, g_adj G0 x = []) by (apply add_nodes_from_adj; reflexivity).
  assert (H0 : weights_ok normalize_L2 df G0 /\ no_self_loops G0 /\ NoDup (g_nodes G0)).
  { split; [intros u v w Hin; rewrite HA0 in Hin; destruct Hin|].
    split; [intros x Hx; rewrite HA0 in Hx; destruct Hx|].
    unfold G0. rewrite add_nodes_from_nodes; exact Hnd. }
  assert (Hrows : forall rows, incl rows df -> forall H,
            weights_ok normalize_L2 df H /\ no_self_loops H /\ NoDup (g_nodes H) ->
            let H' := fold_left (fun G row => fold_left (add_neighbor df row)
                        (index_search normalize_L2 search_ids df (normalize_L2 (embedding row))) G)
                      rows H in
            weights_ok normalize_L2 df H' /\ no_self_loops H' /\ NoDup (g_nodes H')).
  { induction rows as [|row rows IH]; intros Hinc H HH; [exact HH|].
    simpl. apply IH; [intros r Hr; apply Hinc; right; exact Hr|].
    assert (Hrow : lookup df (ID row) = Some row)
      by (apply lookup_of_row; [exact Hnd | apply Hinc; left; reflexivity]).
    assert (Hhits := index_search_scores normalize_L2 search_ids df
                       (normalize_L2 (embedding row))).
    set (hits := index_search normalize_L2 search_ids df (normalize_L2 (embedding row))) in *.
    clearbody hits. revert H HH. induction hits as [|hit hits IHh]; intros H HH; [exact HH|].
    simpl. apply IHh; [intros h Hh; apply Hhits; right; exact Hh|].
    destruct HH as [Hw [Hs Hn]]. split; [|split].
    - apply add_neighbor_weights; [exact Hrow | apply Hhits; left; reflexivity | exact Hw].
    - apply add_neighbor_no_self, Hs.
    - apply add_neighbor_nodup, Hn. }
  apply (Hrows df (incl_refl df) G0 H0).
Qed.

(** ** Token sets and the Jaccard ratio *)

Lemma split_on_nonempty : forall sep s, split_on sep s <> [].
Proof.
  intros sep [|c s']; simpl; [discriminate|].
  destruct (Ascii.eqb c sep); [discriminate|].
  destruct (split_on sep s'); discriminate.
Qed.

Lemma token_set_nonempty : forall s, exists t, In t (token_set s).
Proof.
  intros s. unfold token_set.
  destruct (split_on "_"%char (lower s)) as [|t ts] eqn:E.
  - exfalso. exact (split_on_nonempty _ _ E).
  - exists t. apply nodup_In. left. reflexivity.
Qed.

Lemma union_length : forall a b, NoDup a -> NoDup b ->
  (length a + length (filter (fun t => negb (mem_str t a)) b))%nat =
  length (nodup string_dec (a ++ b)).
Proof.
  intros a b Ha Hb. rewrite <- length_app. apply Permutation_length.
  apply NoDup_Permutation.
  - apply NoDup_app; [exact Ha | apply NoDup_filter; exact Hb|].
    intros x Hx Hf. apply filter_In in Hf. destruct Hf as [_ Hf].
    apply (proj2 (mem_str_In x a)) in Hx. rewrite Hx in Hf. discriminate.
  - apply NoDup_nodup.
  - intros x. rewrite nodup_In, !in_app_iff, filter_In. split.
    + intros [H | [H _]]; auto.
    + intros [H | H]; [left; exact H|].
      destruct (mem_str x a) eqn:E.
      * left. apply mem_str_In. exact E.
      * right. split; [exact H | reflexivity].
Qed.

(** ** [structural_score] against Python [==] *)

Lemma py_eq_true : forall a b,
  py_eq a b = true <-> (exists s, a = CStr s /\ b = CStr s) \/ (a = CNone /\ b = CNone).
Proof.
  intros [s| |] [t| |]; simpl; split; intros H;
    try discriminate; try reflexivity;
    try (destruct H as [[x [H1 H2]] | [H1 H2]]; discriminate).
  - apply String.eqb_eq in H. subst. left. exists t. split; reflexivity.
  - destruct H as [[x [H1 H2]] | [H1 H2]]; [|discriminate].
    injection H1 as H1. injection H2 as H2. subst. apply String.eqb_refl.
  - right. split; reflexivity.
Qed.

(** ** Community headers do not depend on the set order *)

Lemma parent_communities_wf : forall part G,
  NoDup (g_nodes G) ->
  Forall (fun p => NoDup (snd p) /\ incl (snd p) (g_nodes G)) (parent_communities part G).
Proof.
  intros part G HG. pose proof (parent_communities_perm part G) as Hp.
  assert (Hnd : NoDup (concat (map snd (parent_communities part G))))
    by exact (Permutation_NoDup (Permutation_sym Hp) HG).
  apply Forall_forall. intros [cid members] Hin. simpl. split.
  - apply (nodup_concat_member _ _ Hnd). apply in_map_iff. exists (cid, members). auto.
  - intros x Hx. apply (Permutation_in _ Hp). apply in_concat. exists members.
    split; [apply in_map_iff; exists (cid, members); auto | exact Hx].
Qed.

Lemma format_communities_headers : forall set_iter G cs counter,
  (forall l, NoDup l -> Permutation (set_iter l) l) -> NoDup (g_nodes G) ->
  Forall (fun p => NoDup (snd p) /\ incl (snd p) (g_nodes G)) cs ->
  map community_header (format_communities set_iter G cs counter) =
  map (fun p => (fst p, length (snd p), snd p))
      (filter (fun p => negb (Nat.eqb (length (snd p)) 0)) cs).
Proof.
  intros set_iter G cs. induction cs as [|[cid members] cs IH];
    intros counter Hset HG Hcs; simpl; [reflexivity|].
  inversion Hcs as [|? ? [Hm Hinc] Hcs']; subst.
  destruct members as [|m ms]; [apply IH; assumption|]. simpl.
  pose proof (community_sub_groups_partition set_iter G (m :: ms) counter Hset HG Hm Hinc) as Hp.
  destruct (community_sub_groups set_iter G (m :: ms) counter) as [sgs c'] eqn:E.
  simpl in Hp. destruct sgs as [|sg sgs].
  - apply Permutation_nil in Hp. discriminate.
  - simpl. f_equal. apply IH; assumption.
Qed.

(** ** Hub ranking *)

Lemma insert_desc_sorted : forall {A} (key : A -> Q) x s,
  Sorted (fun a b => (key b <= key a)%Q) s ->
  Sorted (fun a b => (key b <= key a)%Q) (insert_desc key x s).
Proof.
  intros A key x s. induction s as [|y s IH]; intros Hs; simpl.
  - repeat constructor.
  - destruct (Qle_bool (key x) (key y)) eqn:E; simpl.
    + apply Sorted_inv in Hs. destruct Hs as [Hs Hhd].
      constructor; [apply IH; exact Hs|].
      destruct s as [|z s']; simpl.
      * constructor. apply Qle_bool_iff. exact E.
      * destruct (Qle_bool (key x) (key z)); constructor;
          [inversion Hhd; assumption | apply Qle_bool_iff; exact E].
    + constructor; [exact Hs|]. constructor.
      apply Qlt_le_weak, Qnot_le_lt. intros Hle.
      apply Qle_bool_iff in Hle. rewrite Hle in E. discriminate.
Qed.

Lemma sort_desc_sorted : forall {A} (key : A -> Q) xs,
  Sorted (fun a b => (key b <= key a)%Q) (sort_desc key xs).
Proof.
  intros A key xs. unfold sort_desc.
  assert (H : forall s, Sorted (fun a b => (key b <= key a)%Q) s ->
            Sorted (fun a b => (key b <= key a)%Q)
                   (fold_left (fun s x => insert_desc key x s) xs s)).
  { induction xs as [|x xs IH]; intros s Hs; simpl; [exact Hs|].
    apply IH, insert_desc_sorted, Hs. }
  apply H. constructor.
Qed.

(** [insert_desc] puts [x] after every element of a sorted list whose key
    is at least its own, so among equal keys [x] comes last. *)
Lemma insert_desc_filter : forall {A} (key : A -> Q) q x s,
  Sorted (fun a b => (key b <= key a)%Q) s ->
  filter (fun y => Qeq_bool (key y) q) (insert_desc key x s) =
  filter (fun y => Qeq_bool (key y) q) s ++ (if Qeq_bool (key x) q then [x] else []).
Proof.
  intros A key q x s. induction s as [|y s IH]; intros Hs; simpl.
  - destruct (Qeq_bool (key x) q); reflexivity.
  - destruct (Qle_bool (key x) (key y)) eqn:E; simpl.
    + apply Sorted_inv in Hs. destruct Hs as [Hs' _].
      rewrite (IH Hs'). destruct (Qeq_bool (key y) q); reflexivity.
    + assert (Hlt : (key y < key x)%Q).
      { apply Qnot_le_lt. intros Hle. apply Qle_bool_iff in Hle. congruence. }
      destruct (Qeq_bool (key x) q) eqn:Ex; [|rewrite app_nil_r; reflexivity].
      apply Qeq_bool_iff in Ex.
      assert (Hall : forall z, In z (y :: s) -> Qeq_bool (key z) q = false).
      { apply Sorted_StronglySorted in Hs;
          [|intros a b c Hab Hbc; eapply Qle_trans; eassumption].
        intros z Hz. destruct (Qeq_bool (key z) q) eqn:Hzq; [exfalso|reflexivity].
        apply Qeq_bool_iff in Hzq.
        assert (Hzy : (key z <= key y)%Q).
        { destruct Hz as [<-|Hz]; [apply Qle_refl|].
          apply StronglySorted_inv in Hs. destruct Hs as [_ Hs].
          rewrite Forall_forall in Hs. exact (Hs z Hz). }
        rewrite Hzq, <- Ex in Hzy. apply (Qlt_not_le _ _ Hlt Hzy). }
      assert (Hf : filter (fun z => Qeq_bool (key z) q) (y :: s) = [])
        by (apply filter_all_false; exact Hall).
      simpl in Hf. rewrite Hf. reflexivity.
Qed.

(** [sorted(xs, key=key, reverse=True)] is stable: the elements of any one
    key keep their order in [xs]. *)
Lemma sort_desc_stable : forall {A} (key : A -> Q) q xs,
  filter (fun y => Qeq_bool (key y) q) (sort_desc key xs) =
  filter (fun y => Qeq_bool (key y) q) xs.
Proof.
  intros A key q xs. unfold sort_desc.
  assert (H : forall s, Sorted (fun a b => (key b <= key a)%Q) s ->
            filter (fun y => Qeq_bool (key y) q)
                   (fold_left (fun s x => insert_desc key x s) xs s) =
            filter (fun y => Qeq_bool (key y) q) s ++ filter (fun y => Qeq_bool (key y) q) xs).
  { induction xs as [|x xs IH]; intros s Hs; simpl; [rewrite app_nil_r; reflexivity|].
    rewrite (IH _ (insert_desc_sorted key x s Hs)), (insert_desc_filter key q x s Hs).
    rewrite <- app_assoc. destruct (Qeq_bool (key x) q); reflexivity. }
  rewrite (H [] (Sorted_nil _)). reflexivity.
Qed.

(** [find_hub] accepts the first candidate whose group is large enough. *)
Lemma find_hub_first : forall W hs h grp,
  find_hub W hs = Some (h, grp) ->
  exists pre post, hs = pre ++ h :: post /\
    Forall (fun c => (length (c :: spokes_of W c) < MIN_HUB_SPOKE_GROUP_SIZE)%nat) pre /\
    grp = h :: spokes_of W h /\ (MIN_HUB_SPOKE_GROUP_SIZE <= length grp)%nat.
Proof.
  intros W hs. induction hs as [|c hs IH]; intros h grp Hf; [discriminate|].
  rewrite find_hub_cons in Hf. destruct (Nat.leb _ _) eqn:E.
  - injection Hf as <- <-. apply Nat.leb_le in E.
    exists [], hs. repeat split; auto.
  - destruct (IH h grp Hf) as [pre [post [Heq [Hpre Hg]]]].
    exists (c :: pre), post. rewrite Heq. split; [reflexivity|]. split; [|exact Hg].
    constructor; [|exact Hpre]. apply Nat.leb_gt. exact E.
Qed.

(** ** Checkpoints in [main] *)

Lemma write_stages_prefix : forall fl b p,
  In p (write_stages fl b) -> firstn (length p) b = p.
Proof.
  intros fl b p Hp. unfold write_stages in Hp. destruct Hp as [<-|Hp]; [reflexivity|].
  apply in_app_or in Hp. destruct Hp as [Hp|[<-|[]]].
  - apply in_map_iff in Hp. destruct Hp as [k [<- _]].
    rewrite length_firstn.
    destruct (Nat.min_spec k (length b)) as [[_ ->]|[Hle ->]]; [reflexivity|].
    rewrite firstn_all, firstn_all2 by exact Hle. reflexivity.
  - apply firstn_all.
Qed.

(** Each stage of a write is a prefix of the content; the first is the
    empty file, the last the whole content. *)
Lemma write_stages_shape : forall fl b,
  hd_error (write_stages fl b) = Some [] /\ last (write_stages fl b) [] = b /\
  Forall (fun p => firstn (length p) b = p) (write_stages fl b).
Proof.
  intros fl b. split; [reflexivity|]. split.
  - unfold write_stages. rewrite app_comm_cons, last_last. reflexivity.
  - apply Forall_forall. apply write_stages_prefix.
Qed.

Lemma load_or_generate_embeddings_cases : forall rt d,
  (exists e, load_or_generate_embeddings rt d = (Raised e d, [])) \/
  (exists eb m, emb_file d = Some eb /\ np_load rt eb = Some m /\
     length m = length (candidate_df rt) /\
     load_or_generate_embeddings rt d = (Done m d, [])) \/
  (exists m, (emb_file d = None \/ exists eb m', emb_file d = Some eb /\
                np_load rt eb = Some m' /\ length m' <> length (candidate_df rt)) /\
     load_or_generate_embeddings rt d =
     (Done m (set_emb_file d (Some (np_save_bytes rt m))),
      map (fun p => set_emb_file d (Some p))
          (write_stages (npy_flushes rt (np_save_bytes rt m)) (np_save_bytes rt m)))).
Proof.
  intros rt d. unfold load_or_generate_embeddings, fresh_embeddings, bind,
    read_emb_file, write_emb_file, ret, raise. simpl.
  destruct (emb_file d) as [eb|] eqn:Ee.
  - destruct (np_load rt eb) as [m|] eqn:El.
    + destruct (Nat.eqb _ _) eqn:En.
      * right. left. exists eb, m. apply Nat.eqb_eq in En. auto.
      * right. right. eexists. split.
        -- right. exists eb, m. apply Nat.eqb_neq in En. auto.
        -- simpl. rewrite !app_nil_r. reflexivity.
    + left. exists NpyLoadError. reflexivity.
  - right. right. eexists. split; [left; reflexivity|]. simpl. rewrite !app_nil_r. reflexivity.
Qed.

(** [main] when no graph checkpoint exists. *)
Lemma main_without_graph_checkpoint : forall rt d,
  candidate_df rt <> [] -> graph_file d = None ->
  main rt d =
  match load_or_generate_embeddings rt d with
  | (Done m d1, t1) =>
      let G := build_graph rt (candidate_df rt) m in
      let b := pickle_dumps rt G in
      (Done (Some (detect_communities rt G)) (set_graph_file d1 (Some b)),
       t1 ++ map (fun p => set_graph_file d1 (Some p)) (write_stages (pickle_flushes rt b) b))
  | (Raised e d1, t1) => (Raised e d1, t1)
  end.
Proof.
  intros rt d Hc Hg. unfold main. destruct (candidate_df rt) as [|r rs]; [congruence|].
  unfold bind at 1. unfold read_graph_file. rewrite Hg. unfold bind at 1. unfold bind at 1.
  destruct (load_or_generate_embeddings rt d) as [[m d1|e d1] t1]; simpl; [|reflexivity].
  rewrite !app_nil_r. reflexivity.
Qed.

(** ** Concrete inputs *)

Lemma clique_rows_ids : NoDup (map ID clique_rows).
Proof.
  unfold clique_rows. rewrite map_map. change (NoDup (map Z.of_nat (seq 1 110))).
  apply (Finite.Injective_map_NoDup Nat2Z.inj), seq_NoDup.
Qed.

(** * Claims *)

(** ** C1: partition completeness.
    For every graph (an [nx.Graph] has no repeated node), every Louvain
    assignment and every set iteration order, the member lists of all
    sub-groups of all communities, each read as a set, together list every
    node of the graph exactly once: no ID is omitted and no ID is in two
    sub-groups. *)
Theorem partition_completeness : forall set_iter part G,
  (forall l, NoDup l -> Permutation (set_iter l) l) ->
  NoDup (g_nodes G) ->
  Permutation
    (flat_map (fun sg => nodup Z.eq_dec (sg_members sg))
              (all_sub_groups (detect_and_format_communities_hub_spoke set_iter part G)))
    (g_nodes G).
Proof.
  intros set_iter part G Hset HG.
  rewrite flat_map_all_sub_groups. unfold detect_and_format_communities_hub_spoke.
  pose proof (parent_communities_perm part G) as Hp.
  eapply perm_trans; [|exact Hp]. apply format_communities_perm; [exact Hset | exact HG|].
  apply Forall_forall. intros [cid members] Hin. simpl.
  assert (Hnd : NoDup (concat (map snd (parent_communities part G))))
    by exact (Permutation_NoDup (Permutation_sym Hp) HG).
  split.
  - apply (nodup_concat_member _ _ Hnd). apply in_map_iff. exists (cid, members). auto.
  - intros x Hx. apply (Permutation_in _ Hp). apply in_concat. exists members.
    split; [apply in_map_iff; exists (cid, members); auto | exact Hx].
Qed.
Lemma partition_completeness_witness :
  NoDup (g_nodes clique_graph) /\
  Permutation
    (flat_map (fun sg => nodup Z.eq_dec (sg_members sg))
              (all_sub_groups
                 (detect_and_format_communities_hub_spoke identity_order (fun _ => 0%Z)
                    clique_graph)))
    (g_nodes clique_graph).
Proof.
  assert (HG : NoDup (g_nodes clique_graph))
    by exact (proj2 (proj2 (build_similarity_graph_spec _ _ _ clique_rows_ids))).
  split; [exact HG|].
  apply (partition_completeness identity_order (fun _ => 0%Z) clique_graph).
  - intros l _. apply Permutation_refl.
  - exact HG.
Defined.


(** ** C2: size bounds.
    In every community of every output, each hub-and-spoke sub-group has
    between [MIN_HUB_SPOKE_GROUP_SIZE] and [MAX_SUB_GROUP_SIZE] members, and
    at most one orphan sub-group has fewer than [MIN_ORPHAN_GROUP_SIZE]. *)
Theorem size_bounds : forall set_iter part G,
  Forall (fun c =>
    (forall sg, In sg (sub_groups c) -> sg_type sg = HubAndSpoke ->
       (MIN_HUB_SPOKE_GROUP_SIZE <= length (sg_members sg) <= MAX_SUB_GROUP_SIZE)%nat) /\
    (length (filter (fun sg => is_orphan (sg_type sg) &&
                               Nat.ltb (length (sg_members sg)) MIN_ORPHAN_GROUP_SIZE)
                    (sub_groups c)) <= 1)%nat)
    (detect_and_format_communities_hub_spoke set_iter part G).
Proof.
  intros set_iter part G. apply Forall_forall. intros c Hc.
  apply in_format_communities in Hc. destruct Hc as [cid [members [k [_ [_ Hc]]]]].
  subst c. simpl. apply community_sub_groups_bounds.
Qed.

(** ** C3: determinism, as far as the code has it.
    No seed reaches [best_partition], and every sub-group is built from
    [set(members)], whose iteration order over [str] IDs changes with the
    per-process hash seed.  What does hold: for one Louvain assignment
    [part], any two set orders give the same communities, with the same
    ids, sizes and member lists, in the same order. *)
Theorem community_headers_set_order_independent : forall set_iter1 set_iter2 part G,
  (forall l, NoDup l -> Permutation (set_iter1 l) l) ->
  (forall l, NoDup l -> Permutation (set_iter2 l) l) ->
  NoDup (g_nodes G) ->
  map community_header (detect_and_format_communities_hub_spoke set_iter1 part G) =
  map community_header (detect_and_format_communities_hub_spoke set_iter2 part G).
Proof.
  intros set_iter1 set_iter2 part G H1 H2 HG.
  unfold detect_and_format_communities_hub_spoke.
  rewrite (format_communities_headers set_iter1 G _ 0 H1 HG (parent_communities_wf part G HG)).
  rewrite (format_communities_headers set_iter2 G _ 0 H2 HG (parent_communities_wf part G HG)).
  reflexivity.
Qed.

Lemma community_headers_set_order_independent_witness :
  NoDup (g_nodes pair_graph) /\
  map community_header
      (detect_and_format_communities_hub_spoke identity_order (fun _ => 0%Z) pair_graph) =
  map community_header
      (detect_and_format_communities_hub_spoke (@rev Z) (fun _ => 0%Z) pair_graph).
Proof.
  assert (HG : NoDup (g_nodes pair_graph)).
  { vm_compute. constructor; [simpl; intros [H | []]; discriminate|].
    constructor; [intros []|constructor]. }
  split; [exact HG|].
  apply (community_headers_set_order_independent identity_order (@rev Z)
           (fun _ => 0%Z) pair_graph).
  - intros l _. apply Permutation_refl.
  - intros l _. apply Permutation_sym, Permutation_rev.
  - exact HG.
Defined.

(** C3 fails: two admissible set orders (insertion order and its reverse)
    give the one community of [pair_graph] the same members but an orphan
    sub-group listing them in different orders, so the serialized output
    differs. *)
Lemma set_order_changes_sub_groups :
  (forall l : list Z, NoDup l -> Permutation (rev l) l) /\
  map sg_members (all_sub_groups
    (detect_and_format_communities_hub_spoke identity_order (fun _ => 0%Z) pair_graph)) =
    [[1; 2]%Z] /\
  map sg_members (all_sub_groups
    (detect_and_format_communities_hub_spoke (@rev Z) (fun _ => 0%Z) pair_graph)) =
    [[2; 1]%Z].
Proof.
  split; [intros l _; apply Permutation_sym, Permutation_rev|].
  split; vm_compute; reflexivity.
Qed.

(** ** C4: the Jaccard similarity of two variable names.
    For two strings it is [|A ∩ B| / |A ∪ B|] over the sets of
    [s.lower().split('_')]; these sets are never empty, since the empty
    string splits to [['']], so the union has at least one token and the
    ratio is always taken.  A non-string input gives [0]. *)
Theorem jaccard_similarity_tokens :
  (forall s1 s2,
     (1 <= length (nodup string_dec (token_set s1 ++ token_set s2)))%nat /\
     jaccard_similarity (CStr s1) (CStr s2) =
       (inject_Z (Z.of_nat (length (filter (fun t => mem_str t (token_set s2)) (token_set s1)))) /
        inject_Z (Z.of_nat (length (nodup string_dec (token_set s1 ++ token_set s2)))))%Q) /\
  (forall c1 c2, (forall s, c1 <> CStr s) \/ (forall s, c2 <> CStr s) ->
     jaccard_similarity c1 c2 = 0%Q) /\
  token_set "" = [""%string].
Proof.
  split; [|split].
  - intros s1 s2.
    assert (Hu := union_length (token_set s1) (token_set s2)
                    (NoDup_nodup _ _) (NoDup_nodup _ _)).
    destruct (token_set_nonempty s1) as [t Ht].
    assert (H1 : (1 <= length (nodup string_dec (token_set s1 ++ token_set s2)))%nat).
    { destruct (nodup string_dec (token_set s1 ++ token_set s2)) as [|x l] eqn:E.
      - exfalso. assert (Hin : In t (nodup string_dec (token_set s1 ++ token_set s2)))
          by (apply nodup_In, in_app_iff; left; exact Ht).
        rewrite E in Hin. exact Hin.
      - simpl. lia. }
    split; [exact H1|]. unfold jaccard_similarity. cbv zeta.
    rewrite Hu. destruct (Nat.eqb_spec (length (nodup string_dec (token_set s1 ++ token_set s2))) 0);
      [lia | reflexivity].
  - intros [s1| |] [s2| |] [H | H]; try reflexivity;
      exfalso; apply (H _ eq_refl).
  - reflexivity.
Qed.

(** C4 fails at the empty string: both token sets are [{''}], so the
    similarity is [1], not [0]. *)
Lemma jaccard_empty_strings :
  jaccard_similarity (CStr "") (CStr "") = 1%Q /\
  ~ (jaccard_similarity (CStr "") (CStr "") == 0)%Q.
Proof.
  split; [reflexivity|]. vm_compute. discriminate.
Qed.

(** ** C5: the structural score is Python's [==] on the two format cells.
    It is [1] exactly when both are the same string (the empty string
    included) or both are missing ([None]); a [NaN] equals nothing; in every
    other case it is [0].  That is the score every edge weight uses. *)
Theorem structural_score_py_eq : forall vf1 vf2,
  (structural_score vf1 vf2 = 1%Q <->
     (exists s, vf1 = CStr s /\ vf2 = CStr s) \/ (vf1 = CNone /\ vf2 = CNone)) /\
  (structural_score vf1 vf2 = 0%Q <->
     ~ ((exists s, vf1 = CStr s /\ vf2 = CStr s) \/ (vf1 = CNone /\ vf2 = CNone))).
Proof.
  intros vf1 vf2. rewrite <- py_eq_true. unfold structural_score.
  destruct (py_eq vf1 vf2); split; split; intros H;
    try reflexivity; try discriminate; try congruence.
Qed.

(** C5 fails on rows whose formats are both missing: their score is [1],
    and the edge between two such rows carries the structural boost
    ([1 * (1 + 0.2 * 0 + 0.15 * 1)]). *)
Lemma structural_score_missing_formats :
  structural_score CNone CNone = 1%Q /\
  structural_score (CStr "") (CStr "") = 1%Q /\
  g_adj (build_similarity_graph (fun v => v) (fun _ => [1; 2]%Z) null_format_rows) 1 =
    [(2%Z, (230 # 200)%Q)].
Proof.
  split; [reflexivity|]. split; [reflexivity|]. vm_compute. reflexivity.
Qed.

(** ** C6: how a round picks its hub.
    A round of the loop that accepts a group runs only while at least
    [MIN_ORPHAN_GROUP_SIZE] nodes remain.  Its candidates are the working
    subgraph's nodes, ranked by [nx.degree_centrality], which counts edges
    and ignores weights, in a stable descending sort: the ranking is a
    sorted permutation of the centralities, and the candidates of any one
    centrality keep the subgraph's node order.  The accepted hub is the
    first candidate whose group [hub :: spokes] reaches
    [MIN_HUB_SPOKE_GROUP_SIZE], every candidate ranked before it falls
    short, and the spokes are its at most [MAX_SUB_GROUP_SIZE - 1]
    heaviest neighbours. *)
Theorem hub_selection_by_degree : forall fuel W rem h grp gs orph,
  hub_loop (S fuel) W rem = ((h, grp) :: gs, orph) ->
  (MIN_ORPHAN_GROUP_SIZE <= length rem)%nat /\
  map fst (degree_centrality W) = g_nodes W /\
  Permutation (sort_desc snd (degree_centrality W)) (degree_centrality W) /\
  Sorted (fun a b => (snd b <= snd a)%Q) (sort_desc snd (degree_centrality W)) /\
  (forall q, filter (fun c => Qeq_bool (snd c) q) (sort_desc snd (degree_centrality W)) =
             filter (fun c => Qeq_bool (snd c) q) (degree_centrality W)) /\
  exists pre post,
    map fst (sort_desc snd (degree_centrality W)) = pre ++ h :: post /\
    Forall (fun c => (length (c :: spokes_of W c) < MIN_HUB_SPOKE_GROUP_SIZE)%nat) pre /\
    grp = h :: spokes_of W h /\ (MIN_HUB_SPOKE_GROUP_SIZE <= length grp)%nat.
Proof.
  intros fuel W rem h grp gs orph Hl. rewrite hub_loop_S in Hl.
  destruct (Nat.leb MIN_ORPHAN_GROUP_SIZE (length rem)) eqn:Elen; [|discriminate].
  apply Nat.leb_le in Elen.
  destruct (degree_centrality W) as [|c cs] eqn:Ec; [discriminate|].
  destruct (find_hub W (map fst (sort_desc snd (c :: cs)))) as [[h' grp']|] eqn:Ef;
    [|discriminate].
  destruct (hub_loop fuel _ _) as [gs' orph'].
  injection Hl as <- <- _ _.
  split; [exact Elen|]. split; [rewrite <- Ec; apply degree_centrality_keys|].
  split; [apply sort_desc_perm|].
  split; [apply sort_desc_sorted|]. split; [intros q; apply sort_desc_stable|].
  exact (find_hub_first W _ h' grp' Ef).
Qed.

Lemma hub_selection_by_degree_witness :
  hub_loop 100 heavy_clique_working (g_nodes heavy_clique) =
    ((1%Z, 1%Z :: spokes_of heavy_clique_working 1) :: [], []) /\
  (forall q, filter (fun c => Qeq_bool (snd c) q) (sort_desc snd (degree_centrality heavy_clique_working)) =
             filter (fun c => Qeq_bool (snd c) q) (degree_centrality heavy_clique_working)).
Proof.
  assert (Hl : hub_loop 100 heavy_clique_working (g_nodes heavy_clique) =
    ((1%Z, 1%Z :: spokes_of heavy_clique_working 1) :: [], []))
    by (vm_compute; reflexivity).
  split; [exact Hl|].
  exact (proj1 (proj2 (proj2 (proj2 (proj2 (hub_selection_by_degree 99 heavy_clique_working
           (g_nodes heavy_clique) 1 _ [] _ Hl)))))).
Defined.

(** C6 fails on [heavy_clique], which Louvain keeps as one community: all
    nodes have the same degree, so the code takes the first node, 1, as
    its hub; ranked by weighted degree as the claim says, node 100 comes
    first and its group, of all 100 nodes, would be accepted. *)
Lemma hub_choice_ignores_weights :
  map hub_cde_id (all_sub_groups
    (detect_and_format_communities_hub_spoke identity_order (fun _ => 0%Z) heavy_clique)) =
    [Some 1%Z] /\
  forallb (fun c => Qeq_bool (snd c) 1) (degree_centrality heavy_clique_working) = true /\
  hd_error (weighted_hub_order heavy_clique_working) = Some 100%Z /\
  option_map fst (find_hub heavy_clique_working (weighted_hub_order heavy_clique_working)) =
    Some 100%Z.
Proof.
  split; [|split; [|split]]; vm_compute; reflexivity.
Qed.

(** ** C7: an unreadable graph checkpoint.
    When the graph checkpoint exists, [main] hands it to [pickle.load]
    with no [try]; if that raises, the exception leaves [main]: nothing is
    recomputed, nothing is written, and no communities are produced. *)
Theorem unreadable_graph_checkpoint_raises : forall rt d b,
  candidate_df rt <> [] ->
  graph_file d = Some b ->
  pickle_loads rt b = None ->
  main rt d = (Raised UnpicklingError d, []).
Proof.
  intros rt d b Hc Hg Hl. unfold main. destruct (candidate_df rt) as [|r rs]; [congruence|].
  unfold bind at 1. unfold read_graph_file. rewrite Hg. unfold bind at 1.
  rewrite Hl. reflexivity.
Qed.

Lemma unreadable_graph_checkpoint_raises_witness :
  main demo_runtime (mkDisk (Some []) None) =
    (Raised UnpicklingError (mkDisk (Some []) None), []).
Proof.
  apply (unreadable_graph_checkpoint_raises demo_runtime (mkDisk (Some []) None) []).
  - simpl. discriminate.
  - reflexivity.
  - reflexivity.
Defined.

(** C7 fails: with an empty graph checkpoint, [main] raises, while the
    same run with no checkpoint succeeds. *)
Lemma corrupt_graph_checkpoint_not_recomputed :
  fst (main demo_runtime (mkDisk (Some []) None)) =
    Raised UnpicklingError (mkDisk (Some []) None) /\
  fst (main demo_runtime (mkDisk None None)) =
    Done (Some (detect_and_format_communities_hub_spoke identity_order (fun _ => 0%Z)
                  demo_graph))
         (mkDisk (Some demo_pickle_bytes) (Some demo_npy_bytes)).
Proof.
  split; vm_compute; reflexivity.
Qed.

(** ** C8: checkpoints are written in place.
    A run of [main] that builds the graph writes its pickle straight to the
    checkpoint path with [open(path, 'wb')]; when it computes the
    embeddings (no [.npy] file, or one whose row count differs from the
    candidates'), it writes their [.npy] straight to its path with
    [np.save].  No temporary path exists.  While each file is written, its
    final path holds every stage of [write_stages]: first the empty file,
    then prefixes of the content, and at the end the whole content. *)
Theorem checkpoint_writes_in_place : forall rt d,
  candidate_df rt <> [] ->
  graph_file d = None ->
  succeeded (fst (main rt d)) = true ->
  (exists G,
     graph_file (outcome_disk (fst (main rt d))) = Some (pickle_dumps rt G) /\
     hd_error (write_stages (pickle_flushes rt (pickle_dumps rt G)) (pickle_dumps rt G)) =
       Some [] /\
     Forall (fun p => firstn (length p) (pickle_dumps rt G) = p /\
                      exists d', In d' (snd (main rt d)) /\ graph_file d' = Some p)
            (write_stages (pickle_flushes rt (pickle_dumps rt G)) (pickle_dumps rt G))) /\
  ((emb_file d = None \/
    exists eb m, emb_file d = Some eb /\ np_load rt eb = Some m /\
                 length m <> length (candidate_df rt)) ->
   exists m,
     emb_file (outcome_disk (fst (main rt d))) = Some (np_save_bytes rt m) /\
     hd_error (write_stages (npy_flushes rt (np_save_bytes rt m)) (np_save_bytes rt m)) =
       Some [] /\
     Forall (fun p => firstn (length p) (np_save_bytes rt m) = p /\
                      exists d', In d' (snd (main rt d)) /\ emb_file d' = Some p)
            (write_stages (npy_flushes rt (np_save_bytes rt m)) (np_save_bytes rt m))).
Proof.
  intros rt d Hc Hg Hs. rewrite (main_without_graph_checkpoint rt d Hc Hg) in *.
  destruct (load_or_generate_embeddings_cases rt d)
    as [[e He]|[[eb [m [Hee [Hl [Hlen He]]]]]|[m [Hw He]]]];
    rewrite He in *; simpl in Hs; [discriminate| |].
  - split.
    + eexists. split; [reflexivity|]. split; [reflexivity|].
      apply Forall_forall. intros p Hp. split; [exact (write_stages_prefix _ _ _ Hp)|].
      exists (set_graph_file d (Some p)).
      split; [|reflexivity]. cbv zeta. cbn [snd]. apply in_or_app. right.
      apply in_map_iff. exists p. split; [reflexivity | exact Hp].
    + intros [Hn|[eb' [m' [He' [Hl' Hlen']]]]]; [congruence|].
      rewrite Hee in He'. injection He' as <-. rewrite Hl in Hl'. injection Hl' as <-.
      contradiction.
  - split.
    + eexists. split; [reflexivity|]. split; [reflexivity|].
      apply Forall_forall. intros p Hp. split; [exact (write_stages_prefix _ _ _ Hp)|].
      exists (set_graph_file (set_emb_file d (Some (np_save_bytes rt m))) (Some p)).
      split; [|reflexivity]. cbv zeta. cbn [snd]. apply in_or_app. right.
      apply in_map_iff. exists p. split; [reflexivity | exact Hp].
    + intros _. exists m. split; [reflexivity|]. split; [reflexivity|].
      apply Forall_forall. intros p Hp. split; [exact (write_stages_prefix _ _ _ Hp)|].
      exists (set_emb_file d (Some p)).
      split; [|reflexivity]. cbv zeta. cbn [snd]. apply in_or_app. left.
      apply in_map_iff. exists p. split; [reflexivity | exact Hp].
Qed.

Lemma checkpoint_writes_in_place_witness :
  succeeded (fst (main demo_runtime (mkDisk None None))) = true /\
  exists m,
    emb_file (outcome_disk (fst (main demo_runtime (mkDisk None None)))) =
      Some (np_save_bytes demo_runtime m) /\
    hd_error (write_stages (npy_flushes demo_runtime (np_save_bytes demo_runtime m))
                (np_save_bytes demo_runtime m)) = Some [] /\
    Forall (fun p => firstn (length p) (np_save_bytes demo_runtime m) = p /\
                     exists d', In d' (snd (main demo_runtime (mkDisk None None))) /\
                                emb_file d' = Some p)
           (write_stages (npy_flushes demo_runtime (np_save_bytes demo_runtime m))
              (np_save_bytes demo_runtime m)).
Proof.
  assert (Hs : succeeded (fst (main demo_runtime (mkDisk None None))) = true)
    by (vm_compute; reflexivity).
  split; [exact Hs|].
  apply (proj2 (checkpoint_writes_in_place demo_runtime (mkDisk None None)
                  ltac:(simpl; discriminate) eq_refl Hs)).
  left. reflexivity.
Defined.

(** C8 fails: a run from an empty output directory leaves, between
    [open(graph_checkpoint_path, 'wb')] and its first write, an empty file
    at the checkpoint path; a run started from that state raises (C7). *)
Lemma crash_leaves_truncated_checkpoint :
  snd (main demo_runtime (mkDisk None None)) =
    [mkDisk None (Some []); mkDisk None (Some demo_npy_bytes);
     mkDisk (Some []) (Some demo_npy_bytes);
     mkDisk (Some demo_pickle_bytes) (Some demo_npy_bytes)] /\
  fst (main demo_runtime (mkDisk (Some []) (Some demo_npy_bytes))) =
    Raised UnpicklingError (mkDisk (Some []) (Some demo_npy_bytes)).
Proof.
  split; vm_compute; reflexivity.
Qed.

(** ** C9: edge weights are symmetric.
    Every edge [(u, v, w)] of the built graph joins two rows of the frame,
    and [w] is [semantic * (1 + LEXICAL_BOOST_FACTOR * lexical +
    STRUCTURAL_BOOST_FACTOR * structural)] computed from the two rows; that
    value does not depend on which of the two rows is queried first. *)
Theorem edge_weight_symmetric : forall normalize_L2 search_ids df,
  NoDup (map ID df) ->
  forall u v w,
  In (v, w) (g_adj (build_similarity_graph normalize_L2 search_ids df) u) ->
  exists ru rv, lookup df u = Some ru /\ lookup df v = Some rv /\
    w = pair_weight normalize_L2 ru rv /\
    pair_weight normalize_L2 ru rv = pair_weight normalize_L2 rv ru.
Proof.
  intros normalize_L2 search_ids df Hnd u v w Hin.
  destruct (build_similarity_graph_spec normalize_L2 search_ids df Hnd) as [Hw _].
  destruct (Hw u v w Hin) as [ru [rv [Hu [Hv Hwt]]]].
  exists ru, rv. repeat split; try assumption. apply pair_weight_sym.
Qed.

Lemma edge_weight_symmetric_witness :
  NoDup (map ID null_format_rows) /\
  In (2%Z, (230 # 200)%Q)
     (g_adj (build_similarity_graph (fun v => v) (fun _ => [1; 2]%Z) null_format_rows) 1) /\
  exists ru rv, lookup null_format_rows 1 = Some ru /\ lookup null_format_rows 2 = Some rv /\
    (230 # 200)%Q = pair_weight (fun v => v) ru rv /\
    pair_weight (fun v => v) ru rv = pair_weight (fun v => v) rv ru.
Proof.
  assert (Hnd : NoDup (map ID null_format_rows))
    by (simpl; repeat constructor; simpl; intuition discriminate).
  assert (Hin : In (2%Z, (230 # 200)%Q)
     (g_adj (build_similarity_graph (fun v => v) (fun _ => [1; 2]%Z) null_format_rows) 1))
    by (vm_compute; left; reflexivity).
  split; [exact Hnd|]. split; [exact Hin|].
  exact (edge_weight_symmetric (fun v => v) (fun _ => [1; 2]%Z) null_format_rows Hnd 1 2
           (230 # 200) Hin).
Defined.

(** ** C10: shape of hub-and-spoke groups.
    On a graph without self-loops (as [build_similarity_graph] produces),
    every emitted hub-and-spoke sub-group lists its hub first and repeats
    no ID. *)
Theorem hub_first_no_duplicates : forall set_iter part G,
  no_self_loops G ->
  Forall (fun sg => sg_type sg = HubAndSpoke ->
            exists h spokes, hub_cde_id sg = Some h /\ sg_members sg = h :: spokes /\
                             NoDup (sg_members sg))
    (all_sub_groups (detect_and_format_communities_hub_spoke set_iter part G)).
Proof.
  intros set_iter part G Hself. apply Forall_forall. intros sg Hsg Ht.
  unfold all_sub_groups in Hsg. apply in_flat_map in Hsg. destruct Hsg as [c [Hc Hsg]].
  apply in_format_communities in Hc. destruct Hc as [cid [members [k [_ [_ Hc]]]]].
  subst c. simpl in Hsg. exact (community_sub_groups_hubs set_iter G members k Hself sg Hsg Ht).
Qed.
Lemma hub_first_no_duplicates_witness :
  no_self_loops clique_graph /\
  map hub_cde_id (all_sub_groups
    (detect_and_format_communities_hub_spoke identity_order (fun _ => 0%Z) clique_graph)) =
    [Some 1%Z] /\
  Forall (fun sg => sg_type sg = HubAndSpoke ->
            exists h spokes, hub_cde_id sg = Some h /\ sg_members sg = h :: spokes /\
                             NoDup (sg_members sg))
    (all_sub_groups
       (detect_and_format_communities_hub_spoke identity_order (fun _ => 0%Z) clique_graph)).
Proof.
  assert (Hself : no_self_loops clique_graph)
    by exact (proj1 (proj2 (build_similarity_graph_spec _ _ _ clique_rows_ids))).
  split; [exact Hself|]. split; [vm_compute; reflexivity|].
  exact (hub_first_no_duplicates identity_order (fun _ => 0%Z) clique_graph Hself).
Defined.


(** * Further properties of the code *)

(** ** Group numbering *)

Lemma number_groups_length : forall c gs, length (number_groups c gs) = length gs.
Proof.
  intros c gs. rewrite <- (number_groups_triples c gs) at 2. rewrite length_map. reflexivity.
Qed.

Lemma number_groups_ids : forall c gs, map group_id (number_groups c gs) = seq c (length gs).
Proof.
  intros c gs. revert c. induction gs as [|[[t h] ms] gs IH]; intros c; simpl; [reflexivity|].
  f_equal. apply IH.
Qed.

Lemma community_sub_groups_counter : forall set_iter G members k,
  snd (community_sub_groups set_iter G members k) =
  (k + length (fst (community_sub_groups set_iter G members k)))%nat.
Proof.
  intros set_iter G members k. unfold community_sub_groups.
  destruct (hub_loop _ _ _) as [hubs orph]. simpl. rewrite number_groups_length. reflexivity.
Qed.

Lemma community_sub_groups_ids : forall set_iter G members k,
  map group_id (fst (community_sub_groups set_iter G members k)) =
  seq k (length (fst (community_sub_groups set_iter G members k))).
Proof.
  intros set_iter G members k. unfold community_sub_groups.
  destruct (hub_loop _ _ _) as [hubs orph]. simpl.
  rewrite number_groups_ids, number_groups_length. reflexivity.
Qed.

Lemma format_communities_ids : forall set_iter G cs k,
  map group_id (flat_map sub_groups (format_communities set_iter G cs k)) =
  seq k (length (flat_map sub_groups (format_communities set_iter G cs k))).
Proof.
  intros set_iter G cs. induction cs as [|[cid ms] cs IH]; intros k; simpl; [reflexivity|].
  destruct ms as [|m ms']; [apply IH|].
  pose proof (community_sub_groups_counter set_iter G (m :: ms') k) as Hc.
  pose proof (community_sub_groups_ids set_iter G (m :: ms') k) as Hi.
  destruct (community_sub_groups set_iter G (m :: ms') k) as [sgs k'] eqn:E.
  simpl in Hc, Hi. subst k'. destruct sgs as [|sg sgs].
  - rewrite Nat.add_0_r. apply IH.
  - cbn [flat_map sub_groups]. rewrite map_app, Hi, IH, length_app, seq_app. reflexivity.
Qed.

(** ** Communities and the Louvain assignment *)

Lemma setdefault_append_entries : forall d k n k' ms,
  NoDup (map fst d) -> In (k', ms) (setdefault_append d k n) ->
  (k' <> k /\ In (k', ms) d) \/
  (k' = k /\ exists ms0, In (k, ms0) d /\ ms = ms0 ++ [n]) \/
  (k' = k /\ ~ In k (map fst d) /\ ms = [n]).
Proof.
  induction d as [|[k0 ms0] d IH]; intros k n k' ms Hnd Hin; simpl in Hin.
  - destruct Hin as [Heq | []]. injection Heq as <- <-. right. right. auto.
  - simpl in Hnd. inversion Hnd as [|? ? Hk0 Hnd']; subst.
    destruct (Z.eqb_spec k0 k) as [<- | Hne].
    + destruct Hin as [Heq | Hin].
      * injection Heq as <- <-. right. left. split; [reflexivity|].
        exists ms0. split; [left; reflexivity | reflexivity].
      * left. split; [|right; exact Hin].
        intros ->. apply Hk0. apply in_map_iff. exists (k0, ms). auto.
    + destruct Hin as [Heq | Hin].
      * injection Heq as <- <-. left. split; [exact Hne | left; reflexivity].
      * destruct (IH k n k' ms Hnd' Hin) as [[H1 H2] | [[H1 [ms1 [H2 H3]]] | [H1 [H2 H3]]]].
        -- left. split; [exact H1 | right; exact H2].
        -- right. left. split; [exact H1|]. exists ms1. split; [right; exact H2 | exact H3].
        -- right. right. split; [exact H1|]. split; [|exact H3].
           simpl. intros [H | H]; [congruence | contradiction].
Qed.

Lemma setdefault_append_keys : forall d k n,
  In k (map fst (setdefault_append d k n)) /\
  (forall k', In k' (map fst d) -> In k' (map fst (setdefault_append d k n))) /\
  (forall k', In k' (map fst (setdefault_append d k n)) -> k' = k \/ In k' (map fst d)) /\
  (NoDup (map fst d) -> NoDup (map fst (setdefault_append d k n))).
Proof.
  induction d as [|[k0 ms0] d IH]; intros k n; simpl.
  - split; [left; reflexivity|]. split; [intros _ []|].
    split; [intros k' [H | []]; left; symmetry; exact H|]. intros _. repeat constructor. intros [].
  - destruct (IH k n) as [IH1 [IH2 [IH3 IH4]]].
    destruct (Z.eqb_spec k0 k) as [<- | Hne]; simpl.
    + split; [left; reflexivity|]. split; [intros k' H; exact H|].
      split; [intros k' H; right; exact H | intros H; exact H].
    + split; [right; exact IH1|].
      split; [intros k' [H | H]; [left; exact H | right; apply IH2, H]|].
      split.
      * intros k' [H | H]; [right; left; exact H|].
        destruct (IH3 k' H) as [H' | H']; [left; exact H' | right; right; exact H'].
      * intros Hnd. inversion Hnd as [|? ? Hk0 Hnd']; subst. constructor; [|apply IH4, Hnd'].
        intros H. destruct (IH3 k0 H) as [H' | H']; [congruence | contradiction].
Qed.

Lemma communities_of_step : forall part seen d n,
  communities_of part seen d ->
  communities_of part (seen ++ [n]) (setdefault_append d (part n) n).
Proof.
  intros part seen d n [Hnd [Hms Hseen]].
  destruct (setdefault_append_keys d (part n) n) as [K1 [K2 [K3 K4]]].
  split; [apply K4, Hnd|]. split.
  - intros k ms Hin. rewrite filter_app. simpl.
    destruct (setdefault_append_entries d (part n) n k ms Hnd Hin)
      as [[H1 H2] | [[H1 [ms0 [H2 H3]]] | [H1 [H2 H3]]]].
    + rewrite (Hms k ms H2). apply Z.eqb_neq in H1. rewrite Z.eqb_sym, H1. symmetry. apply app_nil_r.
    + subst k ms. rewrite (Hms _ ms0 H2), Z.eqb_refl. reflexivity.
    + subst k ms. rewrite Z.eqb_refl.
      replace (filter (fun n0 => Z.eqb (part n0) (part n)) seen) with (@nil Z); [reflexivity|].
      symmetry. apply filter_all_false. intros x Hx. apply Z.eqb_neq. intros Heq.
      apply H2. rewrite <- Heq. apply Hseen, Hx.
  - intros x Hx. apply in_app_iff in Hx. destruct Hx as [Hx | [<- | []]].
    + apply K2, Hseen, Hx.
    + exact K1.
Qed.

Lemma parent_communities_spec : forall part G,
  communities_of part (g_nodes G) (parent_communities part G).
Proof.
  intros part G. unfold parent_communities.
  assert (H : forall l seen d, communities_of part seen d ->
            communities_of part (seen ++ l)
              (fold_left (fun d n => setdefault_append d (part n) n) l d)).
  { induction l as [|n l IH]; intros seen d Hd; simpl; [rewrite app_nil_r; exact Hd|].
    replace (seen ++ n :: l) with ((seen ++ [n]) ++ l) by (rewrite <- app_assoc; reflexivity).
    apply IH, communities_of_step, Hd. }
  apply (H (g_nodes G) [] []). split; [constructor|]. split.
  - intros k ms [].
  - intros n [].
Qed.

Lemma format_communities_community_ids : forall set_iter G cs k,
  NoDup (map fst cs) ->
  NoDup (map community_id (format_communities set_iter G cs k)).
Proof.
  intros set_iter G cs. induction cs as [|[cid ms] cs IH]; intros k Hnd; simpl; [constructor|].
  inversion Hnd as [|? ? Hcid Hnd']; subst.
  destruct ms as [|m ms']; [apply IH, Hnd'|].
  destruct (community_sub_groups set_iter G (m :: ms') k) as [sgs k'].
  destruct sgs as [|sg sgs]; [apply IH, Hnd'|].
  simpl. constructor; [|apply IH, Hnd'].
  intros Hin. apply in_map_iff in Hin. destruct Hin as [c [Hc Hin]].
  apply in_format_communities in Hin. destruct Hin as [cid' [ms'' [k'' [Hin [_ ->]]]]].
  simpl in Hc. subst cid'. apply Hcid. apply in_map_iff. exists (cid, ms''). auto.
Qed.

(** ** Orphan batches and the order of sub-groups *)

Lemma orphan_batches_sizes : forall l,
  Forall (fun b => (1 <= length b <= MIN_ORPHAN_GROUP_SIZE)%nat) (orphan_batches l) /\
  Forall (fun b => length b = MIN_ORPHAN_GROUP_SIZE) (removelast (orphan_batches l)).
Proof.
  intros l. pose proof (batch_count_bound (length l)) as Hb. unfold orphan_batches.
  set (m := ((length l + (MIN_ORPHAN_GROUP_SIZE - 1)) / MIN_ORPHAN_GROUP_SIZE)%nat) in *.
  unfold MIN_ORPHAN_GROUP_SIZE in *.
  split.
  - apply Forall_forall. intros b Hb'. apply in_map_iff in Hb'.
    destruct Hb' as [k [<- Hk]]. apply in_seq in Hk. cbv beta.
    rewrite length_firstn, length_skipn. lia.
  - destruct m as [|m'] eqn:Em; [constructor|].
    rewrite seq_S, map_app. cbn [map]. rewrite removelast_last.
    apply Forall_forall. intros b Hb'. apply in_map_iff in Hb'.
    destruct Hb' as [k [<- Hk]]. apply in_seq in Hk. cbv beta.
    rewrite length_firstn, length_skipn. lia.
Qed.

Lemma number_groups_app : forall c gs1 gs2,
  number_groups c (gs1 ++ gs2) = number_groups c gs1 ++ number_groups (c + length gs1) gs2.
Proof.
  intros c gs1. revert c. induction gs1 as [|[[t h] ms] gs1 IH]; intros c gs2; simpl.
  - rewrite Nat.add_0_r. reflexivity.
  - rewrite IH. do 3 f_equal. lia.
Qed.

Lemma number_groups_removelast : forall c gs,
  removelast (number_groups c gs) = number_groups c (removelast gs).
Proof.
  intros c gs. revert c. induction gs as [|[[t h] ms] gs IH]; intros c; [reflexivity|].
  destruct gs as [|[[t' h'] ms'] gs]; [reflexivity|].
  change (removelast (number_groups c ((t, h, ms) :: (t', h', ms') :: gs)))
    with (mkSubGroup c t h ms :: removelast (number_groups (S c) ((t', h', ms') :: gs))).
  rewrite IH. reflexivity.
Qed.

Lemma removelast_map' : forall {A B} (f : A -> B) l,
  removelast (map f l) = map f (removelast l).
Proof.
  intros A B f l. induction l as [|x l IH]; [reflexivity|].
  destruct l as [|y l]; [reflexivity|].
  change (removelast (map f (x :: y :: l))) with (f x :: removelast (map f (y :: l))).
  rewrite IH. reflexivity.
Qed.

Lemma community_sub_groups_layout : forall set_iter G members k,
  exists hubs orphans,
    fst (community_sub_groups set_iter G members k) = hubs ++ orphans /\
    Forall (fun sg => sg_type sg = HubAndSpoke /\ hub_cde_id sg <> None) hubs /\
    Forall (fun sg => sg_type sg = Orphan /\ hub_cde_id sg = None /\
                      (1 <= length (sg_members sg) <= MIN_ORPHAN_GROUP_SIZE)%nat) orphans /\
    Forall (fun sg => length (sg_members sg) = MIN_ORPHAN_GROUP_SIZE) (removelast orphans).
Proof.
  intros set_iter G members k. rewrite community_sub_groups_unfold.
  destruct (hub_loop _ _ _) as [hs orph]. simpl.
  destruct (orphan_batches_sizes orph) as [Hsz Hlast].
  set (A := map (fun p => (HubAndSpoke, Some (fst p), snd p)) hs).
  set (B := map (fun b => (Orphan, @None Z, b)) (orphan_batches orph)).
  exists (number_groups k A), (number_groups (k + length A) B).
  split; [apply number_groups_app|]. split; [|split].
  - apply Forall_forall. intros sg Hsg. apply in_number_groups in Hsg.
    unfold A, sg_triple in Hsg. apply in_map_iff in Hsg. destruct Hsg as [p [Hp _]].
    injection Hp as H1 H2 _. rewrite <- H1, <- H2. split; [reflexivity | discriminate].
  - apply Forall_forall. intros sg Hsg. apply in_number_groups in Hsg.
    unfold B, sg_triple in Hsg. apply in_map_iff in Hsg. destruct Hsg as [b [Hp Hb]].
    injection Hp as H1 H2 H3. rewrite <- H1, <- H2, <- H3.
    split; [reflexivity|]. split; [reflexivity|]. exact (proj1 (Forall_forall _ _) Hsz b Hb).
  - rewrite number_groups_removelast. apply Forall_forall. intros sg Hsg.
    apply in_number_groups in Hsg. unfold B, sg_triple in Hsg.
    rewrite removelast_map' in Hsg. apply in_map_iff in Hsg. destruct Hsg as [b [Hp Hb]].
    injection Hp as _ _ H3. rewrite <- H3. exact (proj1 (Forall_forall _ _) Hlast b Hb).
Qed.

(** ** Extra: group ids.
    [group_counter] runs over the whole output: the sub-groups, taken
    community by community, carry the ids [0, 1, 2, ...] in order. *)
Theorem group_ids_consecutive : forall set_iter part G,
  map group_id (all_sub_groups (detect_and_format_communities_hub_spoke set_iter part G)) =
  seq 0 (length (all_sub_groups (detect_and_format_communities_hub_spoke set_iter part G))).
Proof.
  intros set_iter part G. unfold all_sub_groups, detect_and_format_communities_hub_spoke.
  apply format_communities_ids.
Qed.

(** ** Extra: communities are the Louvain classes.
    Each emitted community lists exactly the nodes Louvain put in it, in
    the graph's node order, is non-empty, and reports their number as
    [total_cde_count]; no community id occurs twice. *)
Theorem communities_are_louvain_classes : forall set_iter part G,
  let out := detect_and_format_communities_hub_spoke set_iter part G in
  NoDup (map community_id out) /\
  Forall (fun c =>
    comm_members c = filter (fun n => Z.eqb (part n) (community_id c)) (g_nodes G) /\
    comm_members c <> [] /\
    total_cde_count c = length (comm_members c)) out.
Proof.
  intros set_iter part G. cbv zeta. unfold detect_and_format_communities_hub_spoke.
  destruct (parent_communities_spec part G) as [Hnd [Hms _]].
  split; [apply format_communities_community_ids, Hnd|].
  apply Forall_forall. intros c Hc. apply in_format_communities in Hc.
  destruct Hc as [cid [members [k [Hin [Hne ->]]]]]. simpl.
  split; [apply (Hms _ _ Hin)|]. split; [exact Hne | reflexivity].
Qed.

(** ** Extra: order of the sub-groups of a community.
    A community's sub-groups are its hub-and-spoke groups, each with a
    hub, followed by its orphan batches, which have no hub and between 1
    and [MIN_ORPHAN_GROUP_SIZE] members; every orphan batch but the last
    has exactly [MIN_ORPHAN_GROUP_SIZE] members. *)
Theorem sub_group_layout : forall set_iter part G,
  Forall (fun c => exists hubs orphans,
    sub_groups c = hubs ++ orphans /\
    Forall (fun sg => sg_type sg = HubAndSpoke /\ hub_cde_id sg <> None) hubs /\
    Forall (fun sg => sg_type sg = Orphan /\ hub_cde_id sg = None /\
                      (1 <= length (sg_members sg) <= MIN_ORPHAN_GROUP_SIZE)%nat) orphans /\
    Forall (fun sg => length (sg_members sg) = MIN_ORPHAN_GROUP_SIZE) (removelast orphans))
    (detect_and_format_communities_hub_spoke set_iter part G).
Proof.
  intros set_iter part G. apply Forall_forall. intros c Hc.
  apply in_format_communities in Hc. destruct Hc as [cid [members [k [_ [_ ->]]]]].
  apply community_sub_groups_layout.
Qed.

(** ** Members of one community *)

Lemma community_loop_inv : forall set_iter G members,
  (forall l, NoDup l -> Permutation (set_iter l) l) ->
  NoDup (g_nodes G) -> NoDup members -> incl members (g_nodes G) ->
  loop_inv (subgraph_copy set_iter G members) (set_iter members).
Proof.
  intros set_iter G members Hset HG Hm Hinc.
  pose proof (Hset members Hm) as Hp.
  destruct (subgraph_copy_spec set_iter Hset G members HG Hm Hinc) as [_ [Hn [Hk _]]].
  split; [apply (Permutation_NoDup (Permutation_sym Hp) Hm)|]. split; [|exact Hk].
  intros x. rewrite Hn. split; intros H;
    [apply (Permutation_in _ (Permutation_sym Hp) H) | apply (Permutation_in _ Hp H)].
Qed.

(** Without self-loops, no sub-group of a community repeats an ID. *)
Lemma community_sub_groups_nodup : forall set_iter G members counter,
  (forall l, NoDup l -> Permutation (set_iter l) l) ->
  NoDup (g_nodes G) -> NoDup members -> incl members (g_nodes G) -> no_self_loops G ->
  Forall (fun sg => NoDup (sg_members sg)) (fst (community_sub_groups set_iter G members counter)).
Proof.
  intros set_iter G members counter Hset HG Hm Hinc Hself.
  apply Forall_forall. intros sg Hin.
  destruct (sg_type sg) eqn:Ht.
  - destruct (community_sub_groups_hubs set_iter G members counter Hself sg Hin Ht)
      as [h [sp [_ [_ Hnd]]]]. exact Hnd.
  - pose proof (community_loop_inv set_iter G members Hset HG Hm Hinc) as Hinv.
    destruct (hub_loop_partition (length (set_iter members)) _ _ Hinv) as [_ Hnd].
    rewrite community_sub_groups_unfold in Hin.
    destruct (hub_loop _ _ _) as [hubs orph]. simpl in *.
    apply in_number_groups, in_app_iff in Hin.
    destruct Hin as [Hin | Hin]; apply in_map_iff in Hin; destruct Hin as [p [Hp Hin]];
      unfold sg_triple in Hp; [inversion Hp; congruence|].
    assert (Hm' : sg_members sg = p) by (inversion Hp; reflexivity).
    rewrite Hm'. apply (nodup_concat_member (orphan_batches orph));
      [rewrite concat_orphan_batches; exact Hnd | exact Hin].
Qed.

Lemma parent_communities_members : forall part G cid members,
  NoDup (g_nodes G) -> In (cid, members) (parent_communities part G) ->
  NoDup members /\ incl members (g_nodes G).
Proof.
  intros part G cid members HG Hin.
  destruct (parent_communities_spec part G) as [_ [Hms _]].
  rewrite (Hms _ _ Hin). split; [apply NoDup_filter, HG|].
  intros x Hx. apply filter_In in Hx. apply Hx.
Qed.

(** ** Extra: each community is split exactly.
    Without self-loops, the sub-groups of every emitted community repeat
    no ID, and together they hold exactly that community's members. *)
Theorem community_members_split : forall set_iter part G,
  (forall l, NoDup l -> Permutation (set_iter l) l) ->
  NoDup (g_nodes G) -> no_self_loops G ->
  Forall (fun c =>
    Forall (fun sg => NoDup (sg_members sg)) (sub_groups c) /\
    Permutation (flat_map sg_members (sub_groups c)) (comm_members c))
    (detect_and_format_communities_hub_spoke set_iter part G).
Proof.
  intros set_iter part G Hset HG Hself. apply Forall_forall. intros c Hc.
  apply in_format_communities in Hc. destruct Hc as [cid [members [k [Hin [_ ->]]]]].
  destruct (parent_communities_members part G cid members HG Hin) as [Hm Hinc]. simpl.
  pose proof (community_sub_groups_nodup set_iter G members k Hset HG Hm Hinc Hself) as Hnd.
  split; [exact Hnd|].
  pose proof (community_sub_groups_partition set_iter G members k Hset HG Hm Hinc) as Hp.
  replace (flat_map sg_members _) with
    (flat_map (fun sg => nodup Z.eq_dec (sg_members sg))
       (fst (community_sub_groups set_iter G members k))); [exact Hp|].
  rewrite !flat_map_concat_map. f_equal. apply map_ext_in. intros sg Hsg. rewrite Forall_forall in Hnd.
  apply nodup_fixed, Hnd, Hsg.
Qed.
Lemma community_members_split_witness :
  NoDup (g_nodes clique_graph) /\ no_self_loops clique_graph /\
  Forall (fun c =>
    Forall (fun sg => NoDup (sg_members sg)) (sub_groups c) /\
    Permutation (flat_map sg_members (sub_groups c)) (comm_members c))
    (detect_and_format_communities_hub_spoke identity_order (fun _ => 0%Z) clique_graph).
Proof.
  destruct (build_similarity_graph_spec (fun v => v) (fun _ => map Z.of_nat (seq 1 20))
              clique_rows clique_rows_ids) as [_ [Hself HG]].
  split; [exact HG|]. split; [exact Hself|].
  apply (community_members_split identity_order (fun _ => 0%Z) clique_graph).
  - intros l _. apply Permutation_refl.
  - exact HG.
  - exact Hself.
Defined.

(** ** When the hub-and-spoke loop stops *)

Lemma hub_loop_orphans_incl : forall fuel W rem, incl (snd (hub_loop fuel W rem)) rem.
Proof.
  induction fuel as [|fuel IH]; intros W rem; [apply incl_refl|].
  rewrite hub_loop_S. destruct (Nat.leb _ _); [|apply incl_refl].
  destruct (degree_centrality W) as [|c cs]; [apply incl_refl|].
  destruct (find_hub W _) as [[h grp]|]; [|apply incl_refl].
  specialize (IH (remove_nodes_from W grp) (filter (fun n => negb (mem n grp)) rem)).
  destruct (hub_loop fuel _ _) as [gs orph]. simpl in *.
  intros x Hx. apply IH in Hx. apply filter_In in Hx. apply Hx.
Qed.

Lemma spokes_of_length_eq : forall W h,
  length (spokes_of W h) = Nat.min (MAX_SUB_GROUP_SIZE - 1) (length (g_adj W h)).
Proof.
  intros W h. unfold spokes_of. rewrite length_map, length_firstn.
  rewrite (Permutation_length (sort_desc_perm snd (g_adj W h))). reflexivity.
Qed.

(** When no candidate qualifies, every candidate has fewer than
    [MIN_HUB_SPOKE_GROUP_SIZE - 1] neighbours. *)
Lemma find_hub_none : forall W hs,
  find_hub W hs = None ->
  forall h, In h hs -> (length (g_adj W h) < MIN_HUB_SPOKE_GROUP_SIZE - 1)%nat.
Proof.
  intros W hs. induction hs as [|c hs IH]; intros Hf h Hin; [destruct Hin|].
  rewrite find_hub_cons in Hf. destruct (Nat.leb _ _) eqn:E; [discriminate|].
  destruct Hin as [Hin | Hin]; [|apply IH; assumption]. subst c.
  apply Nat.leb_gt in E. simpl in E. rewrite spokes_of_length_eq in E.
  unfold MIN_HUB_SPOKE_GROUP_SIZE, MAX_SUB_GROUP_SIZE in *. lia.
Qed.

Lemma filter_filter_implied : forall {A} (f g : A -> bool) l,
  (forall x, f x = true -> g x = true) -> filter f (filter g l) = filter f l.
Proof.
  intros A f g l H. induction l as [|x l IH]; simpl; [reflexivity|].
  destruct (g x) eqn:Eg; simpl; rewrite ?IH; [reflexivity|].
  destruct (f x) eqn:Ef; [|reflexivity]. rewrite (H x Ef) in Eg. discriminate.
Qed.

Lemma length_filter_drop : forall (l : list Z) grp h,
  In h l -> In h grp ->
  (length (filter (fun n => negb (mem n grp)) l) < length l)%nat.
Proof.
  induction l as [|x l IH]; intros grp h Hin Hg; [destruct Hin|].
  simpl. pose proof (length_filter_split (fun n => negb (mem n grp)) l) as Hl.
  destruct Hin as [Hin | Hin].
  - subst x. apply mem_In in Hg. rewrite Hg. simpl.
    pose proof (filter_length_le (fun n => negb (mem n grp)) l). lia.
  - specialize (IH grp h Hin Hg). destruct (negb (mem x grp)); simpl; lia.
Qed.

(** The loop ends with fewer than [MIN_ORPHAN_GROUP_SIZE] orphans, or with
    every orphan having fewer than [MIN_HUB_SPOKE_GROUP_SIZE - 1]
    neighbours among the orphans. *)
Lemma hub_loop_stop : forall fuel W rem,
  loop_inv W rem -> (length rem <= fuel)%nat ->
  let orph := snd (hub_loop fuel W rem) in
  (length orph < MIN_ORPHAN_GROUP_SIZE)%nat \/
  forall o, In o orph ->
    (length (filter (fun p => mem (fst p) orph) (g_adj W o)) < MIN_HUB_SPOKE_GROUP_SIZE - 1)%nat.
Proof.
  induction fuel as [|fuel IH]; intros W rem Hinv Hlen orph; unfold orph; clear orph.
  - left. simpl. unfold MIN_ORPHAN_GROUP_SIZE. lia.
  - rewrite hub_loop_S. destruct (Nat.leb _ _) eqn:Eb; [|left; apply Nat.leb_gt, Eb].
    destruct Hinv as [Hnd [Hnr Hk]].
    destruct (degree_centrality W) as [|c cs] eqn:Hc.
    + left. destruct rem as [|r rem']; [simpl; unfold MIN_ORPHAN_GROUP_SIZE; lia|].
      exfalso. pose proof (proj2 (Hnr r) (or_introl eq_refl)) as Hr.
      rewrite <- degree_centrality_keys, Hc in Hr. destruct Hr.
    + destruct (find_hub W _) as [[h grp]|] eqn:Hf.
      * pose proof (find_hub_in_nodes W c cs h grp Hc Hf) as Hh.
        apply find_hub_spec in Hf. destruct Hf as [_ [Hg _]].
        destruct (loop_inv_step W rem h grp (conj Hnd (conj Hnr Hk)) Hh Hg) as [Hinc Hinv'].
        assert (Hlen' : (length (filter (fun n => negb (mem n grp)) rem) <= fuel)%nat).
        { pose proof (length_filter_drop rem grp h (proj1 (Hnr h) Hh)
                        (ltac:(rewrite Hg; left; reflexivity))). lia. }
        pose proof (hub_loop_orphans_incl fuel (remove_nodes_from W grp)
                      (filter (fun n => negb (mem n grp)) rem)) as Hsub.
        destruct (IH _ _ Hinv' Hlen') as [Hs | Hs];
          destruct (hub_loop fuel _ _) as [gs orph] eqn:E; simpl in *; [left; exact Hs|].
        right. intros o Ho. specialize (Hs o Ho).
        assert (Hog : mem o grp = false).
        { apply Hsub in Ho. apply filter_In in Ho. destruct Ho as [_ Ho].
          destruct (mem o grp); [discriminate | reflexivity]. }
        rewrite Hog, filter_filter_implied in Hs; [exact Hs|].
        intros [y w] Hy. simpl in *. apply mem_In, Hsub, filter_In in Hy.
        apply Hy.
      * right. simpl. intros o Ho.
        eapply Nat.le_lt_trans; [apply filter_length_le|].
        apply (find_hub_none W _ Hf). rewrite <- Hc, <- (degree_centrality_keys W) in *.
        apply (Permutation_in _ (Permutation_sym (Permutation_map fst (sort_desc_perm snd _)))).
        apply Hnr, Ho.
Qed.

Lemma orphan_members_number_groups : forall c gs,
  flat_map sg_members (filter (fun sg => is_orphan (sg_type sg)) (number_groups c gs)) =
  flat_map snd (filter (fun t => is_orphan (fst (fst t))) gs).
Proof.
  intros c gs. revert c. induction gs as [|[[t h] ms] gs IH]; intros c; [reflexivity|].
  simpl. destruct (is_orphan t); simpl; rewrite IH; reflexivity.
Qed.

(** The members of a community's orphan sub-groups are the orphans the
    loop leaves, in order. *)
Lemma community_orphans : forall set_iter G members k,
  flat_map sg_members (filter (fun sg => is_orphan (sg_type sg))
                              (fst (community_sub_groups set_iter G members k))) =
  snd (hub_loop (length (set_iter members)) (subgraph_copy set_iter G members)
                (set_iter members)).
Proof.
  intros set_iter G members k. rewrite community_sub_groups_unfold, orphan_members_number_groups.
  destruct (hub_loop _ _ _) as [hubs orph]. simpl.
  rewrite filter_app, (filter_all_false _ (map _ hubs)), filter_map'; simpl.
  - replace (filter (fun _ => true) (orphan_batches orph)) with (orphan_batches orph)
      by (induction (orphan_batches orph) as [|b bs IHb]; simpl; congruence).
    rewrite flat_map_concat_map, map_map. simpl. rewrite map_id. apply concat_orphan_batches.
  - intros t Ht. apply in_map_iff in Ht. destruct Ht as [p [<- _]]. reflexivity.
Qed.

(** ** Extra: why orphans are left over.
    In every emitted community, with [W] the community's subgraph, either
    the orphans number fewer than [MIN_ORPHAN_GROUP_SIZE], or no orphan has
    [MIN_HUB_SPOKE_GROUP_SIZE - 1] or more neighbours in [W] that are
    themselves orphans: the while loop never stops early. *)
Theorem orphans_left_by_loop_exit : forall set_iter part G,
  (forall l, NoDup l -> Permutation (set_iter l) l) ->
  NoDup (g_nodes G) ->
  Forall (fun c =>
    let W := subgraph_copy set_iter G (comm_members c) in
    let orph := flat_map sg_members (filter (fun sg => is_orphan (sg_type sg)) (sub_groups c)) in
    (length orph < MIN_ORPHAN_GROUP_SIZE)%nat \/
    forall o, In o orph ->
      (length (filter (fun p => mem (fst p) orph) (g_adj W o)) < MIN_HUB_SPOKE_GROUP_SIZE - 1)%nat)
    (detect_and_format_communities_hub_spoke set_iter part G).
Proof.
  intros set_iter part G Hset HG. apply Forall_forall. intros c Hc.
  apply in_format_communities in Hc. destruct Hc as [cid [members [k [Hin [_ ->]]]]].
  destruct (parent_communities_members part G cid members HG Hin) as [Hm Hinc].
  cbv zeta. cbn [sub_groups comm_members]. rewrite community_orphans.
  apply hub_loop_stop; [apply community_loop_inv; assumption | apply Nat.le_refl].
Qed.
Lemma orphans_left_by_loop_exit_witness :
  NoDup (g_nodes clique_graph) /\
  Forall (fun c =>
    let W := subgraph_copy identity_order clique_graph (comm_members c) in
    let orph := flat_map sg_members (filter (fun sg => is_orphan (sg_type sg)) (sub_groups c)) in
    (length orph < MIN_ORPHAN_GROUP_SIZE)%nat \/
    forall o, In o orph ->
      (length (filter (fun p => mem (fst p) orph) (g_adj W o)) < MIN_HUB_SPOKE_GROUP_SIZE - 1)%nat)
    (detect_and_format_communities_hub_spoke identity_order (fun _ => 0%Z) clique_graph).
Proof.
  destruct (build_similarity_graph_spec (fun v => v) (fun _ => map Z.of_nat (seq 1 20))
              clique_rows clique_rows_ids) as [_ [_ HG]].
  split; [exact HG|].
  apply (orphans_left_by_loop_exit identity_order (fun _ => 0%Z) clique_graph).
  - intros l _. apply Permutation_refl.
  - exact HG.
Defined.

(** ** Spokes and hubs *)

(** Each spoke is a neighbour of its hub in the working subgraph. *)
Lemma hub_loop_spokes_adj : forall fuel W rem g,
  In g (fst (hub_loop fuel W rem)) ->
  exists sp, snd g = fst g :: sp /\ forall s, In s sp -> In s (keys (g_adj W (fst g))).
Proof.
  induction fuel as [|fuel IH]; intros W rem g Hg; [destruct Hg|].
  rewrite hub_loop_S in Hg. destruct (Nat.leb _ _); [|destruct Hg].
  destruct (degree_centrality W) as [|c cs]; [destruct Hg|].
  destruct (find_hub W _) as [[h grp]|] eqn:Hf; [|destruct Hg].
  apply find_hub_spec in Hf. destruct Hf as [_ [Hgrp _]].
  specialize (IH (remove_nodes_from W grp) (filter (fun n => negb (mem n grp)) rem)).
  destruct (hub_loop fuel _ _) as [gs orph]. simpl in Hg.
  destruct Hg as [<- | Hg].
  - exists (spokes_of W h). simpl. split; [exact Hgrp|]. apply spokes_of_keys.
  - destruct (IH g Hg) as [sp [Hsp Hadj]]. exists sp. split; [exact Hsp|].
    intros s Hs. specialize (Hadj s Hs). simpl in Hadj.
    destruct (mem (fst g) grp); [destruct Hadj|].
    rewrite keys_filter_out, filter_In in Hadj. apply Hadj.
Qed.

Lemma fold_add_edges_adj : forall (P : Z -> Z -> Prop) es H,
  (forall x y, In y (keys (g_adj H x)) -> P x y) ->
  (forall e, In e es -> P (fst e) (fst (snd e)) /\ P (fst (snd e)) (fst e)) ->
  forall x y, In y (keys (g_adj (fold_left add_edge_step es H) x)) -> P x y.
Proof.
  intros P. induction es as [|e es IH]; intros H HH Hes; simpl; [exact HH|].
  apply IH; [|intros e' He'; apply Hes; right; exact He'].
  intros x y Hy. apply keys_add_edge in Hy.
  destruct (Hes e (or_introl eq_refl)) as [H1 H2].
  destruct Hy as [Hy | [[-> ->] | [-> ->]]]; [apply HH, Hy | exact H1 | exact H2].
Qed.

(** An edge of the community subgraph is an edge of [G], read from one of
    its two ends. *)
Lemma subgraph_copy_adj : forall set_iter G members x y,
  In y (keys (g_adj (subgraph_copy set_iter G members) x)) ->
  In y (keys (g_adj G x)) \/ In x (keys (g_adj G y)).
Proof.
  intros set_iter G members.
  apply (fold_add_edges_adj (fun x y => In y (keys (g_adj G x)) \/ In x (keys (g_adj G y)))).
  - intros x y Hy. rewrite add_nodes_from_adj in Hy; [destruct Hy | reflexivity].
  - intros [u [v w]] He. apply in_flat_map in He. destruct He as [u' [_ Hp]].
    apply in_map_iff in Hp. destruct Hp as [p [Heq Hp]]. inversion Heq; subst.
    apply filter_In in Hp. destruct Hp as [Hp _].
    assert (Hk : In v (keys (g_adj G u))) by (apply in_map_iff; exists (v, w); auto).
    simpl. tauto.
Qed.

Lemma community_sub_groups_hub_adj : forall set_iter G members k sg h,
  In sg (fst (community_sub_groups set_iter G members k)) -> hub_cde_id sg = Some h ->
  exists sp, sg_members sg = h :: sp /\
    forall s, In s sp -> In s (keys (g_adj (subgraph_copy set_iter G members) h)).
Proof.
  intros set_iter G members k sg h Hin Hh.
  rewrite community_sub_groups_unfold in Hin.
  pose proof (hub_loop_spokes_adj (length (set_iter members)) (subgraph_copy set_iter G members)
                (set_iter members)) as Hs.
  destruct (hub_loop _ _ _) as [hubs orph]. simpl in *.
  apply in_number_groups, in_app_iff in Hin.
  destruct Hin as [Hin | Hin]; apply in_map_iff in Hin; destruct Hin as [p [Hp Hin]];
    unfold sg_triple in Hp; [|inversion Hp; congruence].
  assert (Hh' : h = fst p) by (inversion Hp; congruence).
  assert (Hm : sg_members sg = snd p) by (inversion Hp; reflexivity).
  subst h. destruct (Hs p Hin) as [sp [Hsp Hadj]]. exists sp. split; [rewrite Hm; exact Hsp | exact Hadj].
Qed.

Lemma community_sub_groups_members_in : forall set_iter G members k sg x,
  (forall l, NoDup l -> Permutation (set_iter l) l) ->
  NoDup (g_nodes G) -> NoDup members -> incl members (g_nodes G) ->
  In sg (fst (community_sub_groups set_iter G members k)) -> In x (sg_members sg) ->
  In x members.
Proof.
  intros set_iter G members k sg x Hset HG Hm Hinc Hsg Hx.
  apply (Permutation_in _ (community_sub_groups_partition set_iter G members k Hset HG Hm Hinc)).
  apply in_flat_map. exists sg. split; [exact Hsg | apply nodup_In, Hx].
Qed.

(** ** Extra: a spoke is a similarity neighbour of its hub.
    In every emitted community, the hub and every spoke of a
    hub-and-spoke sub-group are members of that community, and each spoke
    is joined to the hub by an edge of the similarity graph. *)
Theorem spokes_adjacent_to_hub : forall set_iter part G,
  (forall l, NoDup l -> Permutation (set_iter l) l) ->
  NoDup (g_nodes G) ->
  Forall (fun c => Forall (fun sg => forall h,
      hub_cde_id sg = Some h ->
      exists spokes, sg_members sg = h :: spokes /\ In h (comm_members c) /\
        forall s, In s spokes ->
          In s (comm_members c) /\ (In s (keys (g_adj G h)) \/ In h (keys (g_adj G s))))
    (sub_groups c))
    (detect_and_format_communities_hub_spoke set_iter part G).
Proof.
  intros set_iter part G Hset HG. apply Forall_forall. intros c Hc.
  apply in_format_communities in Hc. destruct Hc as [cid [members [k [Hin [_ ->]]]]].
  destruct (parent_communities_members part G cid members HG Hin) as [Hm Hinc].
  apply Forall_forall. cbn [sub_groups comm_members]. intros sg Hsg h Hh.
  destruct (community_sub_groups_hub_adj set_iter G members k sg h Hsg Hh) as [sp [Hsp Hadj]].
  assert (Hmem : forall x, In x (sg_members sg) -> In x members)
    by (intros x; apply (community_sub_groups_members_in set_iter G members k sg x
                           Hset HG Hm Hinc Hsg)).
  exists sp. split; [exact Hsp|]. rewrite Hsp in Hmem.
  split; [apply Hmem; left; reflexivity|].
  intros s Hs. split; [apply Hmem; right; exact Hs|].
  apply (subgraph_copy_adj set_iter G members), Hadj, Hs.
Qed.
Lemma spokes_adjacent_to_hub_witness :
  NoDup (g_nodes clique_graph) /\
  Forall (fun c => Forall (fun sg => forall h,
      hub_cde_id sg = Some h ->
      exists spokes, sg_members sg = h :: spokes /\ In h (comm_members c) /\
        forall s, In s spokes ->
          In s (comm_members c) /\
          (In s (keys (g_adj clique_graph h)) \/ In h (keys (g_adj clique_graph s))))
    (sub_groups c))
    (detect_and_format_communities_hub_spoke identity_order (fun _ => 0%Z) clique_graph).
Proof.
  destruct (build_similarity_graph_spec (fun v => v) (fun _ => map Z.of_nat (seq 1 20))
              clique_rows clique_rows_ids) as [_ [_ HG]].
  split; [exact HG|].
  apply (spokes_adjacent_to_hub identity_order (fun _ => 0%Z) clique_graph).
  - intros l _. apply Permutation_refl.
  - exact HG.
Defined.

(** ** The Jaccard ratio *)

Lemma jaccard_ratio : forall s1 s2,
  let a := token_set s1 in let b := token_set s2 in
  exists p,
    Z.of_nat (length a + length (filter (fun t => negb (mem_str t a)) b)) = Zpos p /\
    jaccard_similarity (CStr s1) (CStr s2) =
    (inject_Z (Z.of_nat (length (filter (fun t => mem_str t b) a))) / inject_Z (Zpos p))%Q.
Proof.
  intros s1 s2 a b. unfold jaccard_similarity. fold a b.
  destruct (token_set_nonempty s1) as [t Ht]. fold a in Ht.
  destruct (length a + length (filter (fun t => negb (mem_str t a)) b))%nat as [|n] eqn:E.
  - destruct a; [destruct Ht | discriminate].
  - exists (Pos.of_succ_nat n). split; reflexivity.
Qed.

Lemma filter_length_full : forall {A} (f : A -> bool) l,
  length (filter f l) = length l -> forall x, In x l -> f x = true.
Proof.
  intros A f l H x Hx. pose proof (length_filter_split f l) as Hs.
  assert (H0 : filter (fun x => negb (f x)) l = []) by (apply length_zero_iff_nil; lia).
  destruct (f x) eqn:E; [reflexivity|].
  assert (Hin : In x (filter (fun x => negb (f x)) l)) by (apply filter_In; rewrite E; auto).
  rewrite H0 in Hin. destruct Hin.
Qed.

Lemma filter_all_true_eq : forall {A} (f : A -> bool) l,
  (forall x, In x l -> f x = true) -> filter f l = l.
Proof.
  intros A f l H. induction l as [|x l IH]; simpl; [reflexivity|].
  rewrite (H x (or_introl eq_refl)), IH; [reflexivity|]. intros y Hy. apply H. right. exact Hy.
Qed.

Lemma jaccard_similarity_between : forall c1 c2,
  (0 <= jaccard_similarity c1 c2 <= 1)%Q.
Proof.
  intros [s1| |] [s2| |]; try (split; discriminate).
  destruct (jaccard_ratio s1 s2) as [p [Hp ->]].
  set (a := token_set s1) in *. set (b := token_set s2) in *.
  pose proof (filter_length_le (fun t => mem_str t b) a).
  unfold Qle, Qdiv, Qmult, Qinv, inject_Z. simpl. lia.
Qed.

(** ** Extra: range of the Jaccard ratio.
    [jaccard_similarity] always lies between 0 and 1, whatever its
    arguments are. *)
Theorem jaccard_similarity_range : forall c1 c2,
  (0 <= jaccard_similarity c1 c2 <= 1)%Q.
Proof. exact jaccard_similarity_between. Qed.

(** ** Extra: when the Jaccard ratio is 1.
    Two strings have [jaccard_similarity] 1 exactly when, lower-cased and
    split on ['_'], they give the same set of tokens. *)
Theorem jaccard_similarity_one_iff : forall s1 s2,
  (jaccard_similarity (CStr s1) (CStr s2) == 1)%Q <->
  (forall t, In t (split_on "_"%char (lower s1)) <-> In t (split_on "_"%char (lower s2))).
Proof.
  intros s1 s2. destruct (jaccard_ratio s1 s2) as [p [Hp ->]].
  set (a := token_set s1) in *. set (b := token_set s2) in *.
  assert (Ha : forall t, In t a <-> In t (split_on "_"%char (lower s1))) by (intros t; apply nodup_In).
  assert (Hb : forall t, In t b <-> In t (split_on "_"%char (lower s2))) by (intros t; apply nodup_In).
  pose proof (filter_length_le (fun t => mem_str t b) a) as Hle.
  assert (Hq : (inject_Z (Z.of_nat (length (filter (fun t => mem_str t b) a))) /
                inject_Z (Zpos p) == 1)%Q <->
               Z.of_nat (length (filter (fun t => mem_str t b) a)) = Zpos p)
    by (unfold Qeq, Qdiv, Qmult, Qinv, inject_Z; simpl; lia).
  rewrite Hq, <- Hp. split.
  - intros E. assert (E1 : length (filter (fun t => mem_str t b) a) = length a) by lia.
    assert (E2 : length (filter (fun t => negb (mem_str t a)) b) = 0%nat) by lia.
    intros t. rewrite <- Ha, <- Hb. split.
    + intros Ht. apply mem_str_In. exact (filter_length_full _ _ E1 t Ht).
    + intros Ht. destruct (mem_str t a) eqn:Em; [apply mem_str_In, Em|].
      apply length_zero_iff_nil in E2.
      assert (Hin : In t (filter (fun t => negb (mem_str t a)) b))
        by (apply filter_In; rewrite Em; auto).
      rewrite E2 in Hin. destruct Hin.
  - intros Hab.
    assert (E1 : filter (fun t => mem_str t b) a = a).
    { apply filter_all_true_eq. intros t Ht. apply mem_str_In, Hb, Hab, Ha, Ht. }
    assert (E2 : filter (fun t => negb (mem_str t a)) b = []).
    { apply filter_all_false. intros t Ht.
      apply negb_false_iff, mem_str_In, Ha, Hab, Hb, Ht. }
    rewrite E1, E2. simpl. lia.
Qed.

(** ** The similarity graph *)

Lemma lookup_some : forall df id r, lookup df id = Some r -> ID r = id /\ In r df.
Proof.
  intros df id r H. unfold lookup in H. destruct (find_some _ _ H) as [Hin He].
  apply Z.eqb_eq in He. auto.
Qed.

Lemma dset_fresh : forall {V} (l : list (Z * V)) k v,
  ~ In k (keys l) -> dset l k v = l ++ [(k, v)].
Proof.
  intros V l k v. induction l as [|[k' v'] l IH]; intros Hk; [reflexivity|].
  simpl. destruct (Z.eqb k' k) eqn:E.
  - apply Z.eqb_eq in E. subst. exfalso. apply Hk. left. reflexivity.
  - rewrite IH; [reflexivity|]. intros H. apply Hk. right. exact H.
Qed.

(** Adding an edge between two present nodes that are not yet adjacent
    appends one entry at each end. *)
Lemma add_edge_fresh : forall G u v w,
  In u (g_nodes G) -> In v (g_nodes G) -> u <> v ->
  ~ In v (keys (g_adj G u)) -> ~ In u (keys (g_adj G v)) ->
  g_nodes (add_edge G u v w) = g_nodes G /\
  forall x, g_adj (add_edge G u v w) x =
    if Z.eqb x u then g_adj G u ++ [(v, w)]
    else if Z.eqb x v then g_adj G v ++ [(u, w)] else g_adj G x.
Proof.
  intros G u v w Hu Hv Huv Hvu Huv'. unfold add_edge.
  rewrite (add_node_present G u Hu), (add_node_present G v Hv). simpl.
  split; [reflexivity|]. intros x. unfold upd.
  assert (Evu : Z.eqb v u = false) by (apply Z.eqb_neq; congruence).
  rewrite Evu. destruct (Z.eqb x v) eqn:Ex; destruct (Z.eqb x u) eqn:Ey.
  - apply Z.eqb_eq in Ex, Ey. congruence.
  - apply dset_fresh. exact Huv'.
  - apply dset_fresh. exact Hvu.
  - reflexivity.
Qed.

Lemma keys_app_single : forall (l : list (Z * Q)) k w y,
  In y (keys (l ++ [(k, w)])) <-> In y (keys l) \/ y = k.
Proof.
  intros l k w y. unfold keys. rewrite map_app, in_app_iff. simpl. intuition.
Qed.

(** One [add_neighbor] step: it keeps the invariant, and the edges after
    it are the edges before it plus the edge to the hit, when the hit is
    not [-1], not the row itself and a row of the frame. *)
Lemma add_neighbor_spec : forall df row G hit,
  In row df -> build_inv df G ->
  build_inv df (add_neighbor df row G hit) /\
  forall x y, In y (keys (g_adj (add_neighbor df row G hit) x)) <->
    In y (keys (g_adj G x)) \/
    (fst hit <> -1 /\ fst hit <> ID row /\ lookup df (fst hit) <> None /\
     ((x = ID row /\ y = fst hit) \/ (x = fst hit /\ y = ID row))).
Proof.
  intros df row G [j d] Hrow HG. simpl.
  assert (Hkeep : build_inv df G /\ forall x y, In y (keys (g_adj G x)) <->
            In y (keys (g_adj G x)) \/ False) by (split; [exact HG | tauto]).
  destruct HG as [Hn [Hs Hnd]].
  assert (Hsk : forall x y, In y (keys (g_adj G x)) -> In x (keys (g_adj G y))).
  { intros x y Hy. unfold keys in *. apply in_map_iff in Hy. destruct Hy as [[y' w] [Hy Hin]].
    simpl in Hy. subst y'. apply in_map_iff. exists (x, w). split; [reflexivity | apply Hs, Hin]. }
  unfold add_neighbor. destruct (Z.eqb j (-1)) eqn:Ej.
  { split; [apply Hkeep|]. intros x y. apply Z.eqb_eq in Ej. split; [tauto|].
    intros [H | [H _]]; [exact H | congruence]. }
  destruct (Z.eqb (ID row) j) eqn:Er.
  { split; [apply Hkeep|]. intros x y. apply Z.eqb_eq in Er. split; [tauto|].
    intros [H | [_ [H _]]]; [exact H | congruence]. }
  assert (HrowN : In (ID row) (g_nodes G)) by (rewrite Hn; apply in_map, Hrow).
  unfold has_edge. rewrite (proj2 (mem_In _ _) HrowN). simpl.
  destruct (mem j (keys (g_adj G (ID row)))) eqn:Eh.
  { split; [apply Hkeep|]. intros x y. split; [tauto|].
    apply mem_In in Eh. intros [H | [_ [_ [_ [[-> ->] | [-> ->]]]]]]; auto. }
  destruct (lookup df j) as [nrow|] eqn:Hj.
  2:{ split; [apply Hkeep|]. intros x y. split; [tauto|].
      intros [H | [_ [_ [H _]]]]; [exact H | congruence]. }
  destruct (lookup_some df j nrow Hj) as [Hid Hnrow].
  assert (HjN : In j (g_nodes G)) by (rewrite Hn, <- Hid; apply in_map, Hnrow).
  apply mem_false in Eh. apply Z.eqb_neq in Er. apply Z.eqb_neq in Ej.
  set (w := combined_weight _ _ _).
  destruct (add_edge_fresh G (ID row) j w HrowN HjN Er Eh
              (fun H => Eh (Hsk _ _ H))) as [Hn' Ha'].
  split; [split; [|split]|].
  - rewrite Hn'. exact Hn.
  - intros u v w' Hin. rewrite Ha' in Hin |- *.
    destruct (Z.eqb u (ID row)) eqn:Eu; [apply Z.eqb_eq in Eu; subst u|];
      [|destruct (Z.eqb u j) eqn:Eu'; [apply Z.eqb_eq in Eu'; subst u|]].
    + apply in_app_iff in Hin. destruct Hin as [Hin | [Hin | []]].
      * apply Hs in Hin. destruct (Z.eqb v (ID row)) eqn:Ev;
          [apply Z.eqb_eq in Ev; subst v; apply in_app_iff; left; exact Hin|].
        destruct (Z.eqb v j) eqn:Ev'; [apply Z.eqb_eq in Ev'; subst v; apply in_app_iff; left|];
          exact Hin.
      * injection Hin as Hv Hw. subst v w'.
        rewrite (proj2 (Z.eqb_neq j (ID row)) (not_eq_sym Er)), Z.eqb_refl.
        apply in_app_iff. right. left. reflexivity.
    + apply in_app_iff in Hin. destruct Hin as [Hin | [Hin | []]].
      * apply Hs in Hin. destruct (Z.eqb v (ID row)) eqn:Ev;
          [apply Z.eqb_eq in Ev; subst v; apply in_app_iff; left; exact Hin|].
        destruct (Z.eqb v j) eqn:Ev'; [apply Z.eqb_eq in Ev'; subst v; apply in_app_iff; left|];
          exact Hin.
      * injection Hin as Hv Hw. subst v w'.
        rewrite Z.eqb_refl. apply in_app_iff. right. left. reflexivity.
    + apply Hs in Hin. destruct (Z.eqb v (ID row)) eqn:Ev;
        [apply Z.eqb_eq in Ev; subst v; apply in_app_iff; left; exact Hin|].
      destruct (Z.eqb v j) eqn:Ev'; [apply Z.eqb_eq in Ev'; subst v; apply in_app_iff; left|];
        exact Hin.
  - intros x. apply nodup_keys_add_edge, Hnd.
  - intros x y. rewrite Ha'.
    destruct (Z.eqb x (ID row)) eqn:Ex; [apply Z.eqb_eq in Ex; subst x|];
      [|destruct (Z.eqb x j) eqn:Ex'; [apply Z.eqb_eq in Ex'; subst x|]];
      rewrite ?keys_app_single.
    + split; [intros [H | ->]; [left; exact H | right]|].
      * repeat split; try congruence. left. auto.
      * intros [H | [_ [_ [_ [[_ ->] | [H1 _]]]]]]; [left; exact H | right; reflexivity | congruence].
    + split; [intros [H | ->]; [left; exact H | right]|].
      * repeat split; try congruence. right. auto.
      * intros [H | [_ [_ [_ [[H1 _] | [_ ->]]]]]]; [left; exact H | congruence | right; reflexivity].
    + split; [tauto|]. apply Z.eqb_neq in Ex, Ex'.
      intros [H | [_ [_ [_ [[H1 _] | [H1 _]]]]]]; [exact H | congruence | congruence].
Qed.

Lemma fold_add_neighbor_spec : forall df row hits G,
  In row df -> build_inv df G ->
  build_inv df (fold_left (add_neighbor df row) hits G) /\
  forall x y, In y (keys (g_adj (fold_left (add_neighbor df row) hits G) x)) <->
    In y (keys (g_adj G x)) \/ exists hit, In hit hits /\ hit_edge df row (fst hit) x y.
Proof.
  intros df row hits. induction hits as [|hit hits IH]; intros G Hrow HG; simpl.
  - split; [exact HG|]. intros x y. split; [tauto|]. intros [H | [h [[] _]]]. exact H.
  - destruct (add_neighbor_spec df row G hit Hrow HG) as [HG1 Hk1].
    destruct (IH _ Hrow HG1) as [HG2 Hk2]. split; [exact HG2|].
    intros x y. rewrite Hk2, Hk1. split.
    + intros [[H | H] | [h [Hh He]]]; [left; exact H | right | right].
      * exists hit. split; [left; reflexivity | exact H].
      * exists h. split; [right; exact Hh | exact He].
    + intros [H | [h [[<- | Hh] He]]]; [left; left; exact H | left; right; exact He|].
      right. exists h. auto.
Qed.

Lemma build_rows_spec : forall normalize_L2 search_ids df rows G,
  incl rows df -> build_inv df G ->
  let G' := fold_left (fun G row =>
              fold_left (add_neighbor df row)
                        (index_search normalize_L2 search_ids df (normalize_L2 (embedding row))) G)
              rows G in
  build_inv df G' /\
  forall x y, In y (keys (g_adj G' x)) <->
    In y (keys (g_adj G x)) \/
    exists row hit, In row rows /\
      In hit (index_search normalize_L2 search_ids df (normalize_L2 (embedding row))) /\
      hit_edge df row (fst hit) x y.
Proof.
  intros normalize_L2 search_ids df rows. induction rows as [|row rows IH]; intros G Hinc HG G'.
  - split; [exact HG|]. intros x y. split; [tauto|].
    intros [H | [r [h [[] _]]]]. exact H.
  - simpl in G'. unfold G'.
    destruct (fold_add_neighbor_spec df row
                (index_search normalize_L2 search_ids df (normalize_L2 (embedding row))) G
                (Hinc row (or_introl eq_refl)) HG) as [HG1 Hk1].
    destruct (IH _ (fun r Hr => Hinc r (or_intror Hr)) HG1) as [HG2 Hk2].
    split; [exact HG2|]. intros x y. rewrite Hk2, Hk1. split.
    + intros [[H | [h [Hh He]]] | [r [h [Hr [Hh He]]]]]; [left; exact H | right | right].
      * exists row, h. split; [left; reflexivity | auto].
      * exists r, h. split; [right; exact Hr | auto].
    + intros [H | [r [h [[<- | Hr] [Hh He]]]]]; [left; left; exact H | left; right | right].
      * exists h. auto.
      * exists r, h. auto.
Qed.

Lemma build_similarity_graph_edges_spec : forall normalize_L2 search_ids df,
  NoDup (map ID df) ->
  let G := build_similarity_graph normalize_L2 search_ids df in
  build_inv df G /\
  forall x y, In y (keys (g_adj G x)) <->
    exists row hit, In row df /\
      In hit (index_search normalize_L2 search_ids df (normalize_L2 (embedding row))) /\
      hit_edge df row (fst hit) x y.
Proof.
  intros normalize_L2 search_ids df Hnd G.
  set (G0 := add_nodes_from empty_graph (map ID df)).
  assert (HA0 : forall x, g_adj G0 x = []) by (apply add_nodes_from_adj; reflexivity).
  assert (H0 : build_inv df G0).
  { split; [unfold G0; rewrite add_nodes_from_nodes; [reflexivity | exact Hnd]|].
    split; [intros u v w Hin; rewrite HA0 in Hin; destruct Hin|].
    intros x. rewrite HA0. constructor. }
  destruct (build_rows_spec normalize_L2 search_ids df df G0 (incl_refl df) H0) as [HG Hk].
  split; [exact HG|]. intros x y. unfold G, build_similarity_graph. fold G0. rewrite Hk.
  rewrite HA0. simpl. tauto.
Qed.

Lemma combined_weight_bounds : forall s l t, (0 <= s)%Q -> (0 <= l <= 1)%Q ->
  (t == 0 \/ t == 1)%Q -> (s <= combined_weight s l t <= (27 # 20) * s)%Q.
Proof.
  intros s l t Hs [Hl0 Hl1] Ht.
  unfold combined_weight, LEXICAL_BOOST_FACTOR, STRUCTURAL_BOOST_FACTOR.
  assert (H1 : (0 <= s * l)%Q) by (apply Qmult_le_0_compat; assumption).
  assert (H2 : (s * l <= s)%Q).
  { rewrite <- (Qmult_1_r s) at 2. rewrite !(Qmult_comm s). apply Qmult_le_compat_r; assumption. }
  destruct Ht as [Ht | Ht]; rewrite Ht; split; ring_simplify; lra.
Qed.

Lemma py_max0_nonneg : forall d, (0 <= py_max0 d)%Q.
Proof.
  intros d. unfold py_max0. destruct (Qle_bool d 0) eqn:E; [discriminate|].
  apply Qlt_le_weak, Qnot_le_lt. intros H. apply Qle_bool_iff in H. congruence.
Qed.

(** ** Extra: range of an edge weight.
    Every edge weight lies between the edge's semantic score
    [max(0, cosine)] and 1.35 times it; in particular it is never
    negative, and it is 0 when the embeddings point away from each
    other. *)
Theorem edge_weight_range : forall normalize_L2 search_ids df,
  NoDup (map ID df) ->
  forall u v w,
  In (v, w) (g_adj (build_similarity_graph normalize_L2 search_ids df) u) ->
  exists ru rv, lookup df u = Some ru /\ lookup df v = Some rv /\
    let semantic := py_max0 (dot (normalize_L2 (embedding ru)) (normalize_L2 (embedding rv))) in
    (0 <= semantic /\ semantic <= w /\ w <= (27 # 20) * semantic)%Q.
Proof.
  intros normalize_L2 search_ids df Hnd u v w Hin.
  destruct (build_similarity_graph_spec normalize_L2 search_ids df Hnd) as [Hw _].
  destruct (Hw u v w Hin) as [ru [rv [Hu [Hv ->]]]].
  exists ru, rv. split; [exact Hu|]. split; [exact Hv|]. cbv zeta.
  unfold pair_weight. pose proof (py_max0_nonneg
    (dot (normalize_L2 (embedding ru)) (normalize_L2 (embedding rv)))) as H0.
  split; [exact H0|]. apply combined_weight_bounds;
    [exact H0 | apply jaccard_similarity_between|].
  unfold structural_score. destruct (py_eq _ _); [right | left]; reflexivity.
Qed.
Lemma edge_weight_range_witness :
  NoDup (map ID clique_rows) /\
  forall u v w, In (v, w) (g_adj clique_graph u) ->
  exists ru rv, lookup clique_rows u = Some ru /\ lookup clique_rows v = Some rv /\
    let semantic := py_max0 (dot (embedding ru) (embedding rv)) in
    (0 <= semantic /\ semantic <= w /\ w <= (27 # 20) * semantic)%Q.
Proof.
  split; [exact clique_rows_ids|].
  exact (edge_weight_range (fun v => v) (fun _ => map Z.of_nat (seq 1 20)) clique_rows
           clique_rows_ids).
Defined.

(** ** Extra: shape of the similarity graph.
    The graph has exactly one node per row ID, in row order; every
    adjacency entry has its mirror entry with the same weight; no node is
    its own neighbour and none lists a neighbour twice. *)
Theorem similarity_graph_shape : forall normalize_L2 search_ids df,
  NoDup (map ID df) ->
  let G := build_similarity_graph normalize_L2 search_ids df in
  g_nodes G = map ID df /\
  (forall u v w, In (v, w) (g_adj G u) -> In (u, w) (g_adj G v)) /\
  (forall u, ~ In u (keys (g_adj G u)) /\ NoDup (keys (g_adj G u))).
Proof.
  intros normalize_L2 search_ids df Hnd G.
  destruct (build_similarity_graph_edges_spec normalize_L2 search_ids df Hnd) as [[Hn [Hs Hk]] _].
  destruct (build_similarity_graph_spec normalize_L2 search_ids df Hnd) as [_ [Hself _]].
  split; [exact Hn|]. split; [exact Hs|]. intros u. split; [apply Hself | apply Hk].
Qed.
Lemma similarity_graph_shape_witness :
  NoDup (map ID clique_rows) /\
  g_nodes clique_graph = map ID clique_rows /\
  (forall u v w, In (v, w) (g_adj clique_graph u) -> In (u, w) (g_adj clique_graph v)) /\
  (forall u, ~ In u (keys (g_adj clique_graph u)) /\ NoDup (keys (g_adj clique_graph u))).
Proof.
  split; [exact clique_rows_ids|].
  exact (similarity_graph_shape (fun v => v) (fun _ => map Z.of_nat (seq 1 20)) clique_rows
           clique_rows_ids).
Defined.

(** ** Extra: which pairs become edges.
    Two IDs are adjacent in the similarity graph exactly when both are
    rows of the frame, they differ, and one of them is among the search
    results of the other's normalised embedding; a result equal to [-1]
    (the padding FAISS uses) never makes an edge, even when a row has ID
    [-1]. *)
Theorem similarity_graph_edges : forall normalize_L2 search_ids df,
  NoDup (map ID df) ->
  forall u v,
  In v (keys (g_adj (build_similarity_graph normalize_L2 search_ids df) u)) <->
  exists ru rv, lookup df u = Some ru /\ lookup df v = Some rv /\ u <> v /\
    ((v <> -1 /\ In v (search_ids (normalize_L2 (embedding ru)))) \/
     (u <> -1 /\ In u (search_ids (normalize_L2 (embedding rv))))).
Proof.
  intros normalize_L2 search_ids df Hnd u v.
  destruct (build_similarity_graph_edges_spec normalize_L2 search_ids df Hnd) as [_ Hk].
  rewrite Hk. split.
  - intros [row [[j d] [Hrow [Hh [Hj1 [Hj2 [Hj3 Hxy]]]]]]]. simpl in *.
    assert (Hr : lookup df (ID row) = Some row) by (apply lookup_of_row; assumption).
    destruct (lookup df j) as [nrow|] eqn:Hl; [|congruence].
    unfold index_search in Hh. apply in_map_iff in Hh. destruct Hh as [j' [Hj' Hin]].
    injection Hj' as Hjj _. subst j'.
    destruct Hxy as [[-> ->] | [-> ->]].
    + exists row, nrow. repeat split; auto.
    + exists nrow, row. repeat split; auto.
  - intros [ru [rv [Hu [Hv [Huv [[Hv1 Hs] | [Hu1 Hs]]]]]]].
    + destruct (lookup_some df u ru Hu) as [Hid Hin].
      exists ru, (v, match lookup df v with
                     | Some r => dot (normalize_L2 (embedding ru)) (normalize_L2 (embedding r))
                     | None => 0%Q end).
      split; [exact Hin|]. split.
      * unfold index_search. apply in_map_iff. exists v. split; [reflexivity | exact Hs].
      * unfold hit_edge. cbn [fst]. rewrite Hid, Hv. repeat split; try congruence. left. auto.
    + destruct (lookup_some df v rv Hv) as [Hid Hin].
      exists rv, (u, match lookup df u with
                     | Some r => dot (normalize_L2 (embedding rv)) (normalize_L2 (embedding r))
                     | None => 0%Q end).
      split; [exact Hin|]. split.
      * unfold index_search. apply in_map_iff. exists u. split; [reflexivity | exact Hs].
      * unfold hit_edge. cbn [fst]. rewrite Hid, Hu. repeat split; try congruence. right. auto.
Qed.
Lemma similarity_graph_edges_witness :
  NoDup (map ID clique_rows) /\
  In 2%Z (keys (g_adj clique_graph 50%Z)) /\
  forall u v,
  In v (keys (g_adj clique_graph u)) <->
  exists ru rv, lookup clique_rows u = Some ru /\ lookup clique_rows v = Some rv /\ u <> v /\
    ((v <> -1 /\ In v (map Z.of_nat (seq 1 20))) \/ (u <> -1 /\ In u (map Z.of_nat (seq 1 20)))).
Proof.
  split; [exact clique_rows_ids|]. split; [vm_compute; tauto|].
  exact (similarity_graph_edges (fun v => v) (fun _ => map Z.of_nat (seq 1 20)) clique_rows
           clique_rows_ids).
Defined.

(** ** Checkpoints in [main] *)

Lemma main_loaded_graph : forall rt d b G,
  candidate_df rt <> [] -> graph_file d = Some b -> pickle_loads rt b = Some G ->
  main rt d = (Done (Some (detect_communities rt G)) d, []).
Proof.
  intros rt d b G Hc Hg Hl. unfold main. destruct (candidate_df rt) as [|r rs]; [congruence|].
  unfold bind at 1. unfold read_graph_file. rewrite Hg. unfold bind at 1.
  rewrite Hl. reflexivity.
Qed.

Lemma unreadable_graph_checkpoint_raises_helper : forall rt d b,
  candidate_df rt <> [] -> graph_file d = Some b -> pickle_loads rt b = None ->
  main rt d = (Raised UnpicklingError d, []).
Proof.
  intros rt d b Hc Hg Hl. unfold main. destruct (candidate_df rt) as [|r rs]; [congruence|].
  unfold bind at 1. unfold read_graph_file. rewrite Hg. unfold bind at 1.
  rewrite Hl. reflexivity.
Qed.

(** ** Extra: resuming from the checkpoint a run left.
    If pickling reads back every graph the builder makes, then after a
    successful run, a second run of [main] on the checkpoints it left
    loads the graph checkpoint, hands its own partitioner (which may
    differ from the first run's) exactly the graph the first run
    partitioned, and ends with both checkpoints as the first run left
    them, having written nothing. *)
Theorem main_rerun_reuses_checkpoint : forall rt p d,
  (forall m, pickle_loads rt (pickle_dumps rt (build_graph rt (candidate_df rt) m)) =
             Some (build_graph rt (candidate_df rt) m)) ->
  candidate_df rt <> [] ->
  succeeded (fst (main rt d)) = true ->
  exists G,
    fst (main rt d) = Done (Some (detect_communities rt G)) (outcome_disk (fst (main rt d))) /\
    main (with_partitioner rt p) (outcome_disk (fst (main rt d))) =
      (Done (Some (p G)) (outcome_disk (fst (main rt d))), []).
Proof.
  intros rt p d Hpk Hc Hs.
  assert (Hc2 : candidate_df (with_partitioner rt p) <> []) by exact Hc.
  destruct (graph_file d) as [b|] eqn:Hg.
  - destruct (pickle_loads rt b) as [G|] eqn:Hl.
    + exists G. rewrite (main_loaded_graph rt d b G Hc Hg Hl). simpl. split; [reflexivity|].
      exact (main_loaded_graph (with_partitioner rt p) d b G Hc2 Hg Hl).
    + rewrite (unreadable_graph_checkpoint_raises_helper rt d b Hc Hg Hl) in Hs. discriminate.
  - rewrite (main_without_graph_checkpoint rt d Hc Hg) in Hs |- *.
    destruct (load_or_generate_embeddings rt d) as [[m d1|e d1] t1]; [|discriminate].
    cbv zeta. simpl. exists (build_graph rt (candidate_df rt) m). split; [reflexivity|].
    exact (main_loaded_graph (with_partitioner rt p)
             (set_graph_file d1 (Some (pickle_dumps rt (build_graph rt (candidate_df rt) m))))
             (pickle_dumps rt (build_graph rt (candidate_df rt) m)) _ Hc2 eq_refl (Hpk m)).
Qed.

Lemma main_rerun_reuses_checkpoint_witness :
  (forall m, pickle_loads resume_runtime
               (pickle_dumps resume_runtime (build_graph resume_runtime (candidate_df resume_runtime) m)) =
             Some (build_graph resume_runtime (candidate_df resume_runtime) m)) /\
  candidate_df resume_runtime <> [] /\
  succeeded (fst (main resume_runtime (mkDisk None None))) = true /\
  exists G,
    fst (main resume_runtime (mkDisk None None)) =
      Done (Some (detect_communities resume_runtime G))
           (outcome_disk (fst (main resume_runtime (mkDisk None None)))) /\
    main (with_partitioner resume_runtime
            (detect_and_format_communities_hub_spoke identity_order (fun n => n)))
         (outcome_disk (fst (main resume_runtime (mkDisk None None)))) =
      (Done (Some (detect_and_format_communities_hub_spoke identity_order (fun n => n) G))
            (outcome_disk (fst (main resume_runtime (mkDisk None None)))), []).
Proof.
  assert (Hpk : forall m, pickle_loads resume_runtime
               (pickle_dumps resume_runtime (build_graph resume_runtime (candidate_df resume_runtime) m)) =
             Some (build_graph resume_runtime (candidate_df resume_runtime) m))
    by (intros m; reflexivity).
  assert (Hc : candidate_df resume_runtime <> []) by (simpl; discriminate).
  assert (Hs : succeeded (fst (main resume_runtime (mkDisk None None))) = true)
    by (vm_compute; reflexivity).
  split; [exact Hpk|]. split; [exact Hc|]. split; [exact Hs|].
  exact (main_rerun_reuses_checkpoint resume_runtime
           (detect_and_format_communities_hub_spoke identity_order (fun n => n))
           (mkDisk None None) Hpk Hc Hs).
Defined.

(** ** Counts of the statistics file *)

Lemma length_flat_map' : forall {A B} (f : A -> list B) l,
  length (flat_map f l) = list_sum (map (fun x => length (f x)) l).
Proof.
  intros A B f l. induction l as [|x l IH]; simpl; [reflexivity|].
  rewrite length_app, IH. reflexivity.
Qed.

Lemma list_sum_map_ext_in : forall {A} (f g : A -> nat) l,
  (forall x, In x l -> f x = g x) -> list_sum (map f l) = list_sum (map g l).
Proof.
  intros A f g l H. f_equal. apply map_ext_in. exact H.
Qed.

(** ** Extra: totals of the statistics file.
    Without self-loops, the parent community sizes and the sub-group
    sizes that [generate_basic_stats_and_samples] reports both add up to
    the number of nodes of the graph, and every one of them is at least 1,
    so the reported minimums are never 0. *)
Theorem basic_stats_totals : forall set_iter part G,
  (forall l, NoDup l -> Permutation (set_iter l) l) ->
  NoDup (g_nodes G) -> no_self_loops G ->
  let out := detect_and_format_communities_hub_spoke set_iter part G in
  list_sum (parent_sizes out) = length (g_nodes G) /\
  list_sum (sub_group_sizes out) = length (g_nodes G) /\
  Forall (fun n => 1 <= n)%nat (parent_sizes out) /\
  Forall (fun n => 1 <= n)%nat (sub_group_sizes out).
Proof.
  intros set_iter part G Hset HG Hself out.
  assert (Hc : forall c, In c out -> exists cid members k,
             In (cid, members) (parent_communities part G) /\ members <> [] /\
             NoDup members /\ incl members (g_nodes G) /\
             c = mkCommunity cid (length members) members
                   (fst (community_sub_groups set_iter G members k))).
  { intros c Hin. apply in_format_communities in Hin.
    destruct Hin as [cid [members [k [Hin [Hne ->]]]]].
    destruct (parent_communities_members part G cid members HG Hin) as [Hm Hinc].
    exists cid, members, k. auto 6. }
  (* All members of all sub-groups, without de-duplication, list the nodes. *)
  assert (Hall : Permutation (flat_map sg_members (all_sub_groups out)) (g_nodes G)).
  { rewrite flat_map_all_sub_groups.
    pose proof (parent_communities_perm part G) as Hp.
    assert (Hnd : NoDup (concat (map snd (parent_communities part G))))
      by exact (Permutation_NoDup (Permutation_sym Hp) HG).
    eapply perm_trans; [|exact Hp].
    replace (flat_map (fun c => flat_map sg_members (sub_groups c)) out) with
      (flat_map (fun c => flat_map (fun sg => nodup Z.eq_dec (sg_members sg)) (sub_groups c)) out).
    - apply format_communities_perm; [exact Hset | exact HG|].
      apply Forall_forall. intros [cid members] Hin. simpl.
      exact (parent_communities_members part G cid members HG Hin).
    - rewrite !flat_map_concat_map. f_equal. apply map_ext_in. intros c Hin.
      destruct (Hc c Hin) as [cid [members [k [_ [_ [Hm [Hinc ->]]]]]]]. simpl.
      pose proof (community_sub_groups_nodup set_iter G members k Hset HG Hm Hinc Hself) as Hn.
      rewrite !flat_map_concat_map. f_equal. apply map_ext_in. intros sg Hsg.
      rewrite Forall_forall in Hn. apply nodup_fixed, Hn, Hsg. }
  assert (Hsub : list_sum (sub_group_sizes out) = length (g_nodes G)).
  { unfold sub_group_sizes. rewrite <- (Permutation_length Hall), length_flat_map'. reflexivity. }
  split; [|split; [exact Hsub | split]].
  - rewrite <- Hsub. unfold parent_sizes, sub_group_sizes.
    rewrite <- length_flat_map', flat_map_all_sub_groups, length_flat_map'.
    apply list_sum_map_ext_in. intros c Hin.
    destruct (Hc c Hin) as [cid [members [k [_ [_ [Hm [Hinc ->]]]]]]]. simpl.
    apply Permutation_length, Permutation_sym.
    replace (flat_map sg_members _) with
      (flat_map (fun sg => nodup Z.eq_dec (sg_members sg))
         (fst (community_sub_groups set_iter G members k)));
      [apply community_sub_groups_partition; assumption|].
    pose proof (community_sub_groups_nodup set_iter G members k Hset HG Hm Hinc Hself) as Hn.
    rewrite !flat_map_concat_map. f_equal. apply map_ext_in. intros sg Hsg.
    rewrite Forall_forall in Hn. apply nodup_fixed, Hn, Hsg.
  - apply Forall_forall. intros n Hn. unfold parent_sizes in Hn. apply in_map_iff in Hn.
    destruct Hn as [c [<- Hin]]. destruct (Hc c Hin) as [cid [members [k [_ [Hne [_ [_ ->]]]]]]].
    simpl. destruct members; [congruence | simpl; lia].
  - apply Forall_forall. intros n Hn. unfold sub_group_sizes in Hn. apply in_map_iff in Hn.
    destruct Hn as [sg [<- Hin]]. unfold all_sub_groups in Hin. apply in_flat_map in Hin.
    destruct Hin as [c [Hin Hsg]].
    destruct (Hc c Hin) as [cid [members [k [_ [_ [_ [_ ->]]]]]]]. simpl in Hsg.
    destruct (community_sub_groups_layout set_iter G members k)
      as [hubs [orph [Heq [Hh [Ho _]]]]].
    rewrite Heq in Hsg. apply in_app_iff in Hsg. destruct Hsg as [Hsg | Hsg].
    + rewrite Forall_forall in Hh. destruct (Hh sg Hsg) as [Ht _].
      rewrite Heq in *. pose proof (community_sub_groups_bounds set_iter G members k) as [Hb _].
      rewrite Heq in Hb. specialize (Hb sg (in_or_app _ _ _ (or_introl Hsg)) Ht).
      unfold MIN_HUB_SPOKE_GROUP_SIZE in Hb. lia.
    + rewrite Forall_forall in Ho. destruct (Ho sg Hsg) as [_ [_ [H1 _]]]. exact H1.
Qed.
Lemma basic_stats_totals_witness :
  NoDup (g_nodes clique_graph) /\ no_self_loops clique_graph /\
  let out := detect_and_format_communities_hub_spoke identity_order (fun _ => 0%Z) clique_graph in
  list_sum (parent_sizes out) = length (g_nodes clique_graph) /\
  list_sum (sub_group_sizes out) = length (g_nodes clique_graph) /\
  Forall (fun n => 1 <= n)%nat (parent_sizes out) /\
  Forall (fun n => 1 <= n)%nat (sub_group_sizes out).
Proof.
  destruct (build_similarity_graph_spec (fun v => v) (fun _ => map Z.of_nat (seq 1 20))
              clique_rows clique_rows_ids) as [_ [Hself HG]].
  split; [exact HG|]. split; [exact Hself|].
  apply (basic_stats_totals identity_order (fun _ => 0%Z) clique_graph).
  - intros l _. apply Permutation_refl.
  - exact HG.
  - exact Hself.
Defined.
